(** * Matrix fan-out and combination counting

    A shallow embedding of [pkg/apis/pipeline/v1/matrix_types.go]: the
    [Matrix] type, the fan-out engine ([FanOut], [fanOutMatrixParams],
    [distribute], [initializeCombinations], [sortCombination], [toParams]),
    the counter ([CountCombinations] and its two helpers) and the bound check
    ([validateCombinationsCount]).

    Conventions.
    - A Go [map[string]string] is a [gmap string string].
    - A Go [int] is a [Z] kept in the signed 64-bit range by [wrap].
    - A pointer receiver [*Matrix] is an [option Matrix]; dereferencing the
      nil pointer is the [NilDeref] outcome of the [result] monad.
    - The two slice fields of [Matrix] that the code compares with [nil] are
      [slice]s (an optional list); all other slices are plain lists. *)

From Stdlib Require Import ZArith Lia DecimalString.
From stdpp Require Import gmap strings list fin_maps sorting.

Local Open Scope Z_scope.

(** ** Machine integers *)

Module GoInt.

Definition min_int : Z := - 2 ^ 63.
Definition max_int : Z := 2 ^ 63 - 1.

(** Two's-complement reduction of an unbounded result to Go's [int]. *)
Definition wrap (z : Z) : Z := (z + 2 ^ 63) mod 2 ^ 64 - 2 ^ 63.

Definition add (a b : Z) : Z := wrap (a + b).
Definition mul (a b : Z) : Z := wrap (a * b).
Definition incr (a : Z) : Z := add a 1.

(** [len] of a slice. *)
Definition len {A} (l : list A) : Z := Z.of_nat (length l).

End GoInt.

(** ** Pointers and nil dereference *)

Inductive result (A : Type) : Type :=
| Ok (a : A)
| NilDeref.
Arguments Ok {A} a.
Arguments NilDeref {A}.

Definition bind {A B} (r : result A) (k : A → result B) : result B :=
  match r with
  | Ok a => k a
  | NilDeref => NilDeref
  end.

Notation "'let*' x := r 'in' k" := (bind r (fun x => k))
  (at level 10, x name, r at level 100, k at level 200).

(** [*m] for a pointer [m]. *)
Definition deref {A} (p : option A) : result A :=
  match p with
  | Some a => Ok a
  | None => NilDeref
  end.

(** ** Slices that may be nil *)

Abbreviation slice A := (option (list A)).

(** The elements a [range] loop visits; none for the nil slice. *)
Definition elems {A} (s : slice A) : list A := default [] s.

(** ** Parameter model *)

Inductive ParamType : Type :=
| ParamTypeString
| ParamTypeArray
| ParamTypeObject.

(** Modelled from the spec: the declaration of [ParamValue] is not part of
    the sources at hand; a tagged value whose [StringVal] and [ArrayVal]
    fields are the ones [matrix_types.go] reads and writes. A field left out
    of a Go composite literal holds its zero value. *)
Record ParamValue : Type := mkParamValue {
  Type_ : ParamType;
  StringVal : string;
  ArrayVal : list string
}.

(** Modelled from the spec: [Param] is [{Name: string, Value: ParamValue}]. *)
Record Param : Type := mkParam {
  Name : string;
  Value : ParamValue
}.

(** Modelled from the spec: [Params] is an ordered sequence of [Param]. *)
Abbreviation Params := (list Param).

Record IncludeParams : Type := mkIncludeParams {
  IncludeName : string;
  IncludeParams_Params : Params
}.

Abbreviation IncludeParamsList := (list IncludeParams).

Record Matrix : Type := mkMatrix {
  Matrix_Params : slice Param;
  Matrix_Include : slice IncludeParams
}.

Abbreviation Combination := (gmap string string).
Abbreviation Combinations := (list Combination).

(** ** Order on parameter names

    Go compares strings byte by byte; [String.compare] is that order. *)

Definition string_le (s1 s2 : string) : Prop := String.leb s1 s2 = true.
Definition string_lt (s1 s2 : string) : Prop := String.ltb s1 s2 = true.

#[global] Instance string_le_dec : RelDecision string_le.
Proof. intros s1 s2. unfold string_le. apply _. Defined.

(** ** Fan-out engine *)

(** [for key := range c]: the keys of the map, in the order the runtime
    happens to enumerate them. *)
Definition rangeKeys (c : Combination) : list string := (map_to_list c).*1.

(** [sort.Slice(order, func(i, j) bool { return order[i] <= order[j] })]. *)
Definition sortKeys (order : list string) : list string :=
  merge_sort string_le order.

(** [c[key]]: the zero value when the key is missing. *)
Definition index (c : Combination) (key : string) : string :=
  default EmptyString (c !! key).

Definition sortCombination (c : Combination) : list string * Combination :=
  let order := sortKeys (rangeKeys c) in
  let sortedCombination :=
    foldl (fun sc key => <[key := index c key]> sc) ∅ order in
  (order, sortedCombination).

(** [maps.Copy(dst, src)]: every binding of [src] is written into [dst]. *)
Definition maps_Copy (dst src : Combination) : Combination := src ∪ dst.

Definition initializeCombinations (param : Param) : Combinations :=
  foldl (fun combinations value => combinations ++ [{[Name param := value]}])
        [] (ArrayVal (Value param)).

Definition distribute (cs : Combinations) (param : Param) : Combinations :=
  foldl (fun expanded value =>
           foldl (fun expanded combination =>
                    let newCombination := maps_Copy ∅ combination in
                    let newCombination := <[Name param := value]> newCombination in
                    expanded ++ [(sortCombination newCombination).2])
                 expanded cs)
        [] (ArrayVal (Value param)).

Definition fanOutMatrixParams (cs : Combinations) (param : Param) : Combinations :=
  if (GoInt.len cs =? 0) then initializeCombinations param
  else distribute cs param.

Definition toParams (cs : Combinations) : list Params :=
  map (fun combination =>
         let order := (sortCombination combination).1 in
         foldl (fun params key =>
                  params ++ [mkParam key (mkParamValue ParamTypeString (index combination key) [])])
               [] order)
      cs.

(** The loop of [FanOut]: [combinations] starts as the nil slice and is
    replaced once per declared parameter. *)
Definition fanOutLoop (params : Params) : Combinations :=
  foldl fanOutMatrixParams [] params.

Definition FanOut (m : option Matrix) : result (list Params) :=
  let* m' := deref m in
  let combinations := fanOutLoop (elems (Matrix_Params m')) in
  Ok (toParams combinations).

(** ** Counter *)

Definition HasInclude (m : option Matrix) : bool :=
  match m with
  | None => false
  | Some m' =>
      match Matrix_Include m' with
      | None => false
      | Some include => GoInt.len include >? 0
      end
  end.

Definition HasParams (m : option Matrix) : bool :=
  match m with
  | None => false
  | Some m' =>
      match Matrix_Params m' with
      | None => false
      | Some params => GoInt.len params >? 0
      end
  end.

Definition countGeneratedCombinationsFromParams (m : option Matrix) : result Z :=
  if negb (HasParams m) then Ok 0
  else
    let* m' := deref m in
    Ok (foldl (fun count param => GoInt.mul count (GoInt.len (ArrayVal (Value param))))
              1 (elems (Matrix_Params m'))).

(** Modelled from the spec: [extractParamMapArrVals] is declared with the
    parameter types, outside the sources at hand; it builds the mapping from
    each matrix Param name to its array values, in declaration order. *)
Definition extractParamMapArrVals (ps : Params) : gmap string (list string) :=
  foldl (fun paramsMap p => <[Name p := ArrayVal (Value p)]> paramsMap) ∅ ps.

(** [slices.Contains(s, v)]. *)
Fixpoint slices_Contains (s : list string) (v : string) : bool :=
  match s with
  | [] => false
  | x :: s' => if String.eqb x v then true else slices_Contains s' v
  end.

(** The inner loop of [countNewCombinationsFromInclude] over the params of
    one Include entry, threading the running [count]; [break] leaves the
    loop with the count reached so far. *)
Fixpoint scanIncludeParams (matrixParamMap : gmap string (list string))
         (params : Params) (count : Z) : Z :=
  match params with
  | [] => count
  | param :: rest =>
      match matrixParamMap !! Name param with
      | Some val =>
          if negb (slices_Contains val (StringVal (Value param)))
          then scanIncludeParams matrixParamMap rest (GoInt.incr count)
          else count
      | None => scanIncludeParams matrixParamMap rest count
      end
  end.

Definition countNewCombinationsFromInclude (m : option Matrix) : result Z :=
  if negb (HasInclude m) then Ok 0
  else if negb (HasParams m) then
    let* m' := deref m in
    Ok (GoInt.len (elems (Matrix_Include m')))
  else
    let* m' := deref m in
    let matrixParamMap := extractParamMapArrVals (elems (Matrix_Params m')) in
    Ok (foldl (fun count include =>
                 scanIncludeParams matrixParamMap (IncludeParams_Params include) count)
              0 (elems (Matrix_Include m'))).

Definition CountCombinations (m : option Matrix) : result Z :=
  let* count := countGeneratedCombinationsFromParams m in
  let* new := countNewCombinationsFromInclude m in
  Ok (GoInt.add count new).

(** ** Bound check *)

(** The field error of the bound check:
    [apis.ErrOutOfBoundsValue(value, lower, upper, fieldPath)]. *)
Inductive FieldErrorLeaf : Type :=
| ErrOutOfBoundsValue (value lower upper : Z) (fieldPath : string).

(** A [*apis.FieldError] aggregates the failures collected so far; the nil
    error is the empty aggregate. *)
Abbreviation FieldError := (list FieldErrorLeaf).

Definition Also (errs more : FieldError) : FieldError := errs ++ more.

(** The part of [config.FromContextOrDefaults(ctx).Defaults] read here. *)
Record Defaults : Type := mkDefaults {
  DefaultMaxMatrixCombinationsCount : Z
}.

Definition validateCombinationsCount (ctx : Defaults) (m : option Matrix)
  : result FieldError :=
  let errs : FieldError := [] in
  let* matrixCombinationsCount := CountCombinations m in
  let maxMatrixCombinationsCount := DefaultMaxMatrixCombinationsCount ctx in
  Ok (if matrixCombinationsCount >? maxMatrixCombinationsCount
      then Also errs [ErrOutOfBoundsValue matrixCombinationsCount 0
                                          maxMatrixCombinationsCount "matrix"]
      else errs).

(** ** All parameters of a matrix *)

Definition GetAllParams (m : option Matrix) : result Params :=
  let params : Params := [] in
  let* params :=
    (if HasParams m
     then let* m' := deref m in Ok (params ++ elems (Matrix_Params m'))
     else Ok params) in
  let* params :=
    (if HasInclude m
     then let* m' := deref m in
          Ok (foldl (fun params include => params ++ IncludeParams_Params include)
                    params (elems (Matrix_Include m')))
     else Ok params) in
  Ok params.

(** ** Validators

    The validators report through knative's [apis.FieldError]. An error is
    kept here as the call that builds it ([apis.ErrInvalidValue],
    [apis.ErrMultipleOneOf], [apis.ErrGeneric]) under the path methods
    applied to it afterwards ([ViaField], [ViaFieldIndex], [ViaFieldKey]);
    the aggregate that [Also] grows is the list of the errors collected, and
    the nil error is the empty list. A path method applied to an aggregate
    applies to each error in it, and leaves the nil error nil. *)
Inductive ValidationError : Type :=
| ErrInvalidValue (value fieldPath : string)
| ErrMultipleOneOf (fieldPaths : list string)
| ErrGeneric (diagnostic : string) (fieldPaths : list string)
| ViaField (prefix : list string) (e : ValidationError)
| ViaFieldIndex (field : string) (index : nat) (e : ValidationError)
| ViaFieldKey (field key : string) (e : ValidationError).

Abbreviation ValidationErrors := (list ValidationError).

Definition alsoErrors (errs more : ValidationErrors) : ValidationErrors := errs ++ more.
Definition viaField (prefix : list string) (errs : ValidationErrors) : ValidationErrors :=
  ViaField prefix <$> errs.
Definition viaFieldKey (field key : string) (errs : ValidationErrors) : ValidationErrors :=
  ViaFieldKey field key <$> errs.

#[global] Instance ParamType_eq_dec : EqDecision ParamType.
Proof. solve_decision. Defined.

(** [fmt.Sprintf] of a [%d] verb. *)
Definition formatInt (i : nat) : string := NilEmpty.string_of_uint (Nat.to_uint i).

(** Modelled from the spec: [ExtractNames] is declared with the parameter
    types, outside the sources at hand; it gathers the names of a parameter
    list into a set. *)
Definition ExtractNames (ps : Params) : gset string :=
  foldl (fun names p => {[Name p]} ∪ names) ∅ ps.

Definition validateParameterInOneOfMatrixOrParams (m : option Matrix) (params : list Param)
  : result ValidationErrors :=
  let errs : ValidationErrors := [] in
  let* allParams := GetAllParams m in
  let matrixParamNames := ExtractNames allParams in
  Ok (foldl (fun errs param =>
               if decide (Name param ∈ matrixParamNames)
               then alsoErrors errs
                      [ErrMultipleOneOf [("matrix[" ++ Name param ++ "]")%string;
                                         ("params[" ++ Name param ++ "]")%string]]
               else errs)
            errs params).

(** [for i, x := range l { errs = body(i, x, errs) }], [idx] being the index
    of the element at the head of [l]. *)
Fixpoint rangeIndexed {A} (body : nat → A → ValidationErrors → ValidationErrors)
         (idx : nat) (l : list A) (errs : ValidationErrors) : ValidationErrors :=
  match l with
  | [] => errs
  | x :: rest => rangeIndexed body (S idx) rest (body idx x errs)
  end.

Section ValidatorsWithCollaborators.

(** Declared with the parameter types, outside the sources at hand: the
    string a [ParamType] constant stands for, and the duplicate-name check of
    a parameter list. *)
Variable paramTypeString : ParamType → string.
Variable validateDuplicateParameters : Params → ValidationErrors.

(** Declared with the pipeline validation, outside the sources at hand: the
    checks of the variable references in a string and in an array element. *)
Variable validateStringVariable :
  string → string → gset string → gset string → gmap string (list string)
  → ValidationErrors.
Variable validateArrayVariable :
  string → string → gset string → gset string → gmap string (list string)
  → ValidationErrors.

(** The inner loop of [validateParams] over the params of one list: one
    error for each param whose type is not [wanted]. *)
Definition validateParamTypes (wanted : ParamType) (message field : string)
           (params : Params) (errs : ValidationErrors) : ValidationErrors :=
  foldl (fun errs param =>
           if decide (Type_ (Value param) ≠ wanted)
           then alsoErrors errs
                  (viaFieldKey field (Name param)
                     [ErrInvalidValue
                        (message ++ paramTypeString (Type_ (Value param)))%string
                        EmptyString])
           else errs)
        errs params.

Definition validateParams (m : option Matrix) : result ValidationErrors :=
  let errs : ValidationErrors := [] in
  if decide (m ≠ None) then
    let* errs :=
      (if HasInclude m
       then let* m' := deref m in
            Ok (rangeIndexed
                  (fun i include errs =>
                     let errs :=
                       alsoErrors errs
                         (viaField [("matrix.include[" ++ formatInt i ++ "].params")%string]
                            (validateDuplicateParameters (IncludeParams_Params include))) in
                     validateParamTypes ParamTypeString
                       "parameters of type string only are allowed, but got param type "
                       "matrix.include.params" (IncludeParams_Params include) errs)
                  0 (elems (Matrix_Include m')) errs)
       else Ok errs) in
    let* errs :=
      (if HasParams m
       then let* m' := deref m in
            let errs :=
              alsoErrors errs
                (viaField ["matrix.params"%string]
                          (validateDuplicateParameters (elems (Matrix_Params m')))) in
            Ok (validateParamTypes ParamTypeArray
                  "parameters of type array only are allowed, but got param type "
                  "matrix.params" (elems (Matrix_Params m')) errs)
       else Ok errs) in
    Ok errs
  else Ok errs.


End ValidatorsWithCollaborators.

(** ** Vocabulary of the statements *)

(** The array lengths [l1..ln] of a parameter list, and their product. *)
Definition arrayLengths (ps : Params) : list nat :=
  (fun p => length (ArrayVal (Value p))) <$> ps.

Definition product (ls : list nat) : nat := foldr Nat.mul 1%nat ls.

(** A matrix parameter of array type, and an include parameter of string
    type, as the examples write them. *)
Definition arrayParam (name : string) (vals : list string) : Param :=
  mkParam name (mkParamValue ParamTypeArray EmptyString vals).

Definition stringParam (name val : string) : Param :=
  mkParam name (mkParamValue ParamTypeString val []).

(** The number of combinations after which the [k]-th declared parameter
    moves to its next value: the product of the lengths declared before it. *)
Definition stride (ps : Params) (k : nat) : nat :=
  product (arrayLengths (take k ps)).

(** What the Include scan finds at one included param: its name is in the
    mapping and its string value is among the array values ([valuePresent]),
    or its name is in the mapping and the value is not ([valueAbsent]). A
    param whose name is not in the mapping is neither. *)
Definition valuePresent (matrixParamMap : gmap string (list string)) (p : Param) : bool :=
  match matrixParamMap !! Name p with
  | Some val => slices_Contains val (StringVal (Value p))
  | None => false
  end.

Definition valueAbsent (matrixParamMap : gmap string (list string)) (p : Param) : bool :=
  match matrixParamMap !! Name p with
  | Some val => negb (slices_Contains val (StringVal (Value p)))
  | None => false
  end.

(** The params of an entry that come before its first [valuePresent] one. *)
Fixpoint beforeFirstPresent (matrixParamMap : gmap string (list string))
         (params : Params) : Params :=
  match params with
  | [] => []
  | p :: rest =>
      if valuePresent matrixParamMap p then []
      else p :: beforeFirstPresent matrixParamMap rest
  end.

(** The number of [valueAbsent] params before the first [valuePresent] one. *)
Definition entryContribution (matrixParamMap : gmap string (list string))
           (params : Params) : nat :=
  length (List.filter (valueAbsent matrixParamMap)
                      (beforeFirstPresent matrixParamMap params)).

(** The count before its reduction to an [int]: the product of the array
    lengths (nothing when there are no Params), and what the Include entries
    add (their number when there are no Params, their contributions
    otherwise). *)
Definition paramsCount (m : Matrix) : nat :=
  match elems (Matrix_Params m) with
  | [] => 0%nat
  | _ :: _ => product (arrayLengths (elems (Matrix_Params m)))
  end.

Definition includeCount (m : Matrix) : nat :=
  match elems (Matrix_Params m) with
  | [] => length (elems (Matrix_Include m))
  | _ :: _ =>
      sum_list ((fun e => entryContribution
                            (extractParamMapArrVals (elems (Matrix_Params m)))
                            (IncludeParams_Params e))
                  <$> elems (Matrix_Include m))
  end.

(** The number of params over all Include entries. *)
Definition includeParamsTotal (m : Matrix) : nat :=
  sum_list ((fun e => length (IncludeParams_Params e)) <$> elems (Matrix_Include m)).

(** The names [GetAllParams] gathers: those of [Matrix.Params], then those
    of each Include entry. *)
Definition matrixNames (m : Matrix) : list string :=
  Name <$> (elems (Matrix_Params m)
            ++ concat (IncludeParams_Params <$> elems (Matrix_Include m))).

(** The params of a list whose type is not the wanted one. *)
Definition mistyped (wanted : ParamType) (params : Params) : Params :=
  filter (fun p => Type_ (Value p) ≠ wanted) params.

(** ** Order lemmas for parameter names *)

Section StringOrder.

Lemma ascii_compare_refl a : Ascii.compare a a = Eq.
Proof. unfold Ascii.compare. apply N.compare_refl. Qed.

Lemma ascii_compare_lt_trans a b c :
  Ascii.compare a b = Lt → Ascii.compare b c = Lt → Ascii.compare a c = Lt.
Proof.
  unfold Ascii.compare. rewrite !N.compare_lt_iff. apply N.lt_trans.
Qed.

Lemma string_compare_refl s : String.compare s s = Eq.
Proof. induction s as [|a s IH]; simpl; [done|]. by rewrite ascii_compare_refl. Qed.

Lemma string_compare_lt_trans s1 : ∀ s2 s3,
  String.compare s1 s2 = Lt → String.compare s2 s3 = Lt →
  String.compare s1 s3 = Lt.
Proof.
  induction s1 as [|a s1 IH]; intros [|b s2] [|c s3]; simpl; try done.
  destruct (Ascii.compare a b) eqn:Hab; try done;
    destruct (Ascii.compare b c) eqn:Hbc; try done; intros H12 H23.
  - apply Ascii.compare_eq_iff in Hab, Hbc. subst.
    rewrite ascii_compare_refl. eauto.
  - apply Ascii.compare_eq_iff in Hab. subst. by rewrite Hbc.
  - apply Ascii.compare_eq_iff in Hbc. subst. by rewrite Hab.
  - by rewrite (ascii_compare_lt_trans _ _ _ Hab Hbc).
Qed.

Lemma string_le_cases s1 s2 : string_le s1 s2 ↔ s1 = s2 ∨ string_lt s1 s2.
Proof.
  unfold string_le, string_lt, String.leb, String.ltb. split.
  - destruct (String.compare s1 s2) eqn:Hc; try done.
    + left. by apply String.compare_eq_iff.
    + by right.
  - intros [->|H].
    + by rewrite string_compare_refl.
    + by destruct (String.compare s1 s2).
Qed.

Lemma string_lt_trans s1 s2 s3 : string_lt s1 s2 → string_lt s2 s3 → string_lt s1 s3.
Proof.
  unfold string_lt, String.ltb. intros H12 H23.
  destruct (String.compare s1 s2) eqn:E12; try done.
  destruct (String.compare s2 s3) eqn:E23; try done.
  by rewrite (string_compare_lt_trans _ _ _ E12 E23).
Qed.

#[global] Instance string_le_trans : Transitive string_le.
Proof.
  intros s1 s2 s3. rewrite !string_le_cases.
  intros [->|H12] [->|H23]; eauto using string_lt_trans.
Qed.

#[global] Instance string_le_antisym : AntiSymm (=) string_le.
Proof. intros s1 s2 H12 H21. by apply String.leb_antisym. Qed.

#[global] Instance string_le_total : Total string_le.
Proof. intros s1 s2. apply String.leb_total. Qed.

Lemma string_lt_irrefl s : ¬ string_lt s s.
Proof. unfold string_lt, String.ltb. by rewrite string_compare_refl. Qed.

Lemma StronglySorted_le_lt (l : list string) :
  NoDup l → StronglySorted string_le l → StronglySorted string_lt l.
Proof.
  induction 2 as [|x l Hl IH Hx]; constructor.
  - apply IH. by eapply NoDup_cons_1_2.
  - apply NoDup_cons in H as [Hnin _].
    rewrite Forall_forall in Hx |- *. intros y Hy.
    destruct (proj1 (string_le_cases x y) (Hx y Hy)) as [->|?]; done.
Qed.

End StringOrder.

(** ** The fan-out engine in closed form *)

Section FanOutEngine.

Lemma foldl_snoc_fmap {A B} (f : B → A) (l : list B) (acc : list A) :
  foldl (fun acc x => acc ++ [f x]) acc l = acc ++ (f <$> l).
Proof.
  revert acc. induction l as [|x l IH]; intros acc; simpl.
  - by rewrite app_nil_r.
  - by rewrite IH, <- app_assoc.
Qed.

Lemma foldl_app_bind {A B} (h : B → list A) (l : list B) (acc : list A) :
  foldl (fun acc x => acc ++ h x) acc l = acc ++ (l ≫= h).
Proof.
  revert acc. induction l as [|x l IH]; intros acc; simpl.
  - by rewrite app_nil_r.
  - by rewrite IH, <- app_assoc.
Qed.

Lemma rangeKeys_elem (c : Combination) k : k ∈ rangeKeys c ↔ is_Some (c !! k).
Proof.
  unfold rangeKeys. rewrite list_elem_of_fmap. split.
  - intros [[k' v] [-> Hkv]]. apply elem_of_map_to_list in Hkv. by exists v.
  - intros [v Hv]. exists (k, v). split; [done|]. by apply elem_of_map_to_list.
Qed.

Lemma rangeKeys_NoDup (c : Combination) : NoDup (rangeKeys c).
Proof. apply NoDup_fst_map_to_list. Qed.

Lemma sortKeys_Permutation ks : sortKeys ks ≡ₚ ks.
Proof. apply merge_sort_Permutation. Qed.

Lemma sortKeys_sorted ks : NoDup ks → StronglySorted string_lt (sortKeys ks).
Proof.
  intros Hnd. apply StronglySorted_le_lt.
  - by rewrite sortKeys_Permutation.
  - apply StronglySorted_merge_sort; apply _.
Qed.

Lemma sortKeys_proper ks ks' : ks ≡ₚ ks' → sortKeys ks = sortKeys ks'.
Proof.
  intros Hp. apply (StronglySorted_unique string_le).
  - apply StronglySorted_merge_sort; apply _.
  - apply StronglySorted_merge_sort; apply _.
  - by rewrite !sortKeys_Permutation.
Qed.

Lemma lookup_foldl_insert (c acc : Combination) (order : list string) k :
  foldl (fun sc key => <[key := index c key]> sc) acc order !! k =
  if decide (k ∈ order) then Some (index c k) else acc !! k.
Proof.
  revert acc. induction order as [|x order IH]; intros acc.
  - done.
  - cbn [foldl]. rewrite IH.
    destruct (decide (k ∈ order)) as [Hin|Hnin].
    + rewrite decide_True; [done|]. by right.
    + destruct (decide (k = x)) as [->|Hne].
      * rewrite decide_True by left. by rewrite lookup_insert_eq.
      * rewrite decide_False, lookup_insert_ne; [done..|].
        by intros [?|?]%elem_of_cons.
Qed.

Lemma sortCombination_snd (c : Combination) : (sortCombination c).2 = c.
Proof.
  unfold sortCombination; simpl. apply map_eq. intros k.
  rewrite lookup_foldl_insert, lookup_empty.
  destruct (decide (k ∈ sortKeys (rangeKeys c))) as [Hin|Hnin].
  - rewrite sortKeys_Permutation in Hin. apply rangeKeys_elem in Hin as [v Hv].
    unfold index. by rewrite Hv.
  - rewrite sortKeys_Permutation, rangeKeys_elem in Hnin.
    symmetry. by apply eq_None_not_Some.
Qed.

Lemma initializeCombinations_eq param :
  initializeCombinations param =
  (fun value => {[Name param := value]}) <$> ArrayVal (Value param).
Proof. unfold initializeCombinations. by rewrite foldl_snoc_fmap. Qed.

Lemma distribute_inner cs name value (acc : Combinations) :
  foldl (fun expanded combination =>
           let newCombination := maps_Copy ∅ combination in
           let newCombination := <[name := value]> newCombination in
           expanded ++ [(sortCombination newCombination).2])
        acc cs
  = acc ++ (insert name value <$> cs).
Proof.
  revert acc. induction cs as [|c cs IH]; intros acc; cbn [foldl fmap list_fmap].
  - by rewrite app_nil_r.
  - rewrite IH, sortCombination_snd. unfold maps_Copy.
    by rewrite (right_id_L ∅ (∪)), <- app_assoc.
Qed.

Lemma distribute_outer cs name vals (acc : Combinations) :
  foldl (fun expanded value =>
           foldl (fun expanded combination =>
                    let newCombination := maps_Copy ∅ combination in
                    let newCombination := <[name := value]> newCombination in
                    expanded ++ [(sortCombination newCombination).2])
                 expanded cs)
        acc vals
  = acc ++ (vals ≫= (fun value => insert name value <$> cs)).
Proof.
  revert acc. induction vals as [|v vals IH]; intros acc; cbn [foldl mbind list_bind].
  - by rewrite app_nil_r.
  - by rewrite distribute_inner, IH, <- app_assoc.
Qed.

Lemma distribute_eq cs param :
  distribute cs param =
  ArrayVal (Value param) ≫= (fun value => insert (Name param) value <$> cs).
Proof. unfold distribute. by rewrite distribute_outer. Qed.

Lemma fanOutMatrixParams_nil param :
  fanOutMatrixParams [] param = initializeCombinations param.
Proof. done. Qed.

Lemma fanOutMatrixParams_cons c cs param :
  fanOutMatrixParams (c :: cs) param = distribute (c :: cs) param.
Proof.
  unfold fanOutMatrixParams, GoInt.len.
  destruct (Z.eqb_spec (Z.of_nat (length (c :: cs))) 0) as [H|H]; [|done].
  simpl in H. lia.
Qed.

Lemma fanOutLoop_snoc ps p :
  fanOutLoop (ps ++ [p]) = fanOutMatrixParams (fanOutLoop ps) p.
Proof. unfold fanOutLoop. by rewrite foldl_snoc. Qed.

Lemma length_initializeCombinations param :
  length (initializeCombinations param) = length (ArrayVal (Value param)).
Proof. by rewrite initializeCombinations_eq, length_fmap. Qed.

Lemma length_distribute cs param :
  length (distribute cs param) = (length (ArrayVal (Value param)) * length cs)%nat.
Proof.
  rewrite distribute_eq. induction (ArrayVal (Value param)) as [|v vals IH]; [done|].
  cbn [mbind list_bind]. rewrite length_app, length_fmap.
  cbn [mbind] in IH. rewrite IH. simpl. lia.
Qed.

Lemma product_app ls1 ls2 : product (ls1 ++ ls2) = (product ls1 * product ls2)%nat.
Proof. induction ls1 as [|l ls1 IH]; simpl; [lia|]. rewrite IH. lia. Qed.

Lemma product_pos ls : Forall (fun l => (0 < l)%nat) ls → (0 < product ls)%nat.
Proof. induction 1; simpl; [lia|]. apply Nat.mul_pos_pos; lia. Qed.

(** When every array is non-empty the loop yields as many combinations as
    the product of the array lengths. *)
Lemma length_fanOutLoop ps :
  ps ≠ [] → Forall (fun l => (0 < l)%nat) (arrayLengths ps) →
  length (fanOutLoop ps) = product (arrayLengths ps).
Proof.
  induction ps as [|p ps IH] using rev_ind; [done|]. intros _ Hpos.
  unfold arrayLengths in *. rewrite fmap_app in Hpos.
  apply Forall_app in Hpos as [Hps Hp].
  rewrite fanOutLoop_snoc, fmap_app, product_app. simpl.
  destruct ps as [|q ps].
  - simpl. rewrite length_initializeCombinations. lia.
  - specialize (IH ltac:(done) Hps).
    pose proof (product_pos _ Hps) as Hpp. rewrite <- IH in Hpp |- *.
    destruct (fanOutLoop (q :: ps)) as [|c cs] eqn:E; [simpl in Hpp; lia|].
    rewrite fanOutMatrixParams_cons, length_distribute. lia.
Qed.

End FanOutEngine.

(** ** Arithmetic of Go's [int] *)

Section GoIntLemmas.

Import GoInt.

Lemma wrap_small z : min_int ≤ z ≤ max_int → wrap z = z.
Proof. unfold wrap, min_int, max_int. intros Hz. rewrite Z.mod_small; lia. Qed.

Lemma wrap_mod z : wrap z mod 2 ^ 64 = z mod 2 ^ 64.
Proof.
  unfold wrap. rewrite Zminus_mod_idemp_l. f_equal. lia.
Qed.

Lemma wrap_congr a b : a mod 2 ^ 64 = b mod 2 ^ 64 → wrap a = wrap b.
Proof.
  unfold wrap. intros Hab.
  by rewrite <- (Zplus_mod_idemp_l a), Hab, Zplus_mod_idemp_l.
Qed.

Lemma wrap_mul_l a b : wrap (wrap a * b) = wrap (a * b).
Proof.
  apply wrap_congr. by rewrite <- Zmult_mod_idemp_l, wrap_mod, Zmult_mod_idemp_l.
Qed.

Lemma wrap_add_l a b : wrap (wrap a + b) = wrap (a + b).
Proof.
  apply wrap_congr. by rewrite <- Zplus_mod_idemp_l, wrap_mod, Zplus_mod_idemp_l.
Qed.

Lemma iter_incr n z : Nat.iter n incr (wrap z) = wrap (z + Z.of_nat n).
Proof.
  induction n as [|n IH]; simpl.
  - f_equal. lia.
  - rewrite IH. unfold incr, add. rewrite wrap_add_l. f_equal. lia.
Qed.

End GoIntLemmas.

(** ** The counter in closed form *)

Section Counter.

Lemma product_fold (ps : Params) a :
  foldl (fun count param => GoInt.mul count (GoInt.len (ArrayVal (Value param))))
        (GoInt.wrap a) ps
  = GoInt.wrap (a * Z.of_nat (product (arrayLengths ps))).
Proof.
  revert a. induction ps as [|p ps IH]; intros a; simpl.
  - f_equal. lia.
  - unfold GoInt.mul at 2. rewrite wrap_mul_l, IH. unfold GoInt.len. f_equal. lia.
Qed.

Lemma HasParams_true m :
  HasParams (Some m) = true ↔ elems (Matrix_Params m) ≠ [].
Proof.
  unfold HasParams, elems, GoInt.len. destruct (Matrix_Params m) as [[|p ps]|]; simpl.
  - split; [done|]. by intros [].
  - split; [done|]. intros _. apply Z.gtb_lt. lia.
  - split; [done|]. by intros [].
Qed.

Lemma HasInclude_true m :
  HasInclude (Some m) = true ↔ elems (Matrix_Include m) ≠ [].
Proof.
  unfold HasInclude, elems, GoInt.len. destruct (Matrix_Include m) as [[|p ps]|]; simpl.
  - split; [done|]. by intros [].
  - split; [done|]. intros _. apply Z.gtb_lt. lia.
  - split; [done|]. by intros [].
Qed.

Lemma HasParams_false m :
  HasParams (Some m) = false ↔ elems (Matrix_Params m) = [].
Proof.
  rewrite <- not_true_iff_false, HasParams_true.
  destruct (elems (Matrix_Params m)); naive_solver.
Qed.

Lemma HasInclude_false m :
  HasInclude (Some m) = false ↔ elems (Matrix_Include m) = [].
Proof.
  rewrite <- not_true_iff_false, HasInclude_true.
  destruct (elems (Matrix_Include m)); naive_solver.
Qed.

Lemma countGeneratedCombinationsFromParams_eq m :
  elems (Matrix_Params m) ≠ [] →
  countGeneratedCombinationsFromParams (Some m)
  = Ok (GoInt.wrap (Z.of_nat (product (arrayLengths (elems (Matrix_Params m)))))).
Proof.
  intros Hps. unfold countGeneratedCombinationsFromParams.
  rewrite (proj2 (HasParams_true m) Hps). simpl.
  change 1 with (GoInt.wrap 1). rewrite product_fold. do 2 f_equal. lia.
Qed.

(** No call of the counter dereferences a nil receiver. *)
Lemma CountCombinations_total m : ∃ count, CountCombinations m = Ok count.
Proof.
  unfold CountCombinations, countGeneratedCombinationsFromParams,
    countNewCombinationsFromInclude.
  destruct m as [m|]; [|by eexists].
  destruct (HasParams (Some m)), (HasInclude (Some m)); simpl; by eexists.
Qed.

(** With every array non-empty, no Include and a product that fits in an
    [int], fan-out length, product and count agree. *)
Lemma FanOut_length_product ps inc :
  ps ≠ [] → Forall (fun l => (0 < l)%nat) (arrayLengths ps) → elems inc = [] →
  Z.of_nat (product (arrayLengths ps)) ≤ GoInt.max_int →
  ∃ outs, FanOut (Some (mkMatrix (Some ps) inc)) = Ok outs
          ∧ length outs = product (arrayLengths ps)
          ∧ CountCombinations (Some (mkMatrix (Some ps) inc))
            = Ok (Z.of_nat (product (arrayLengths ps))).
Proof.
  intros Hne Hpos Hinc Hfit. eexists. split; [done|]. split.
  - unfold toParams. rewrite length_map. simpl. by apply length_fanOutLoop.
  - unfold CountCombinations. rewrite countGeneratedCombinationsFromParams_eq by done.
    unfold countNewCombinationsFromInclude.
    rewrite (proj2 (HasInclude_false (mkMatrix (Some ps) inc)) Hinc). simpl.
    assert (Hw : GoInt.wrap (Z.of_nat (product (arrayLengths ps)))
                 = Z.of_nat (product (arrayLengths ps))).
    { apply wrap_small. unfold GoInt.min_int. lia. }
    unfold GoInt.add. rewrite Hw, Z.add_0_r, Hw. done.
Qed.

End Counter.

(** ** Fan-out: empty arrays, empty parameter lists, Include *)

Section FanOutDegenerate.

Lemma fanOutMatrixParams_empty_array cs p :
  ArrayVal (Value p) = [] → fanOutMatrixParams cs p = [].
Proof.
  intros Hp. destruct cs as [|c cs].
  - by rewrite fanOutMatrixParams_nil, initializeCombinations_eq, Hp.
  - by rewrite fanOutMatrixParams_cons, distribute_eq, Hp.
Qed.

(** An empty array empties the working list, and the next parameter is then
    taken for the first one: the loop restarts after the empty array. *)
Lemma fanOutLoop_restart ps1 p ps2 :
  ArrayVal (Value p) = [] → fanOutLoop (ps1 ++ p :: ps2) = fanOutLoop ps2.
Proof.
  intros Hp. unfold fanOutLoop. rewrite foldl_app. cbn [foldl].
  by rewrite fanOutMatrixParams_empty_array.
Qed.

Lemma fanOutLoop_last_empty ps p :
  ArrayVal (Value p) = [] → fanOutLoop (ps ++ [p]) = [].
Proof. intros Hp. by rewrite fanOutLoop_restart. Qed.

(** C1 (zero-length array, evaluated on the code): for
    [Params = [{a: []}, {b: [x]}]] the first array has length 0, yet [FanOut]
    returns the one combination [{b: x}]: the empty working list left by [a]
    makes [fanOutMatrixParams] initialise again from [b]. The product of the
    lengths, as [countGeneratedCombinationsFromParams] computes it, is 0. *)
Theorem FanOut_zero_length_not_absorbing :
  let m := mkMatrix (Some [arrayParam "a" []; arrayParam "b" ["x"]]) None in
  FanOut (Some m) = Ok [[stringParam "b" "x"]]
  ∧ countGeneratedCombinationsFromParams (Some m) = Ok 0.
Proof. split; vm_compute; reflexivity. Qed.

(** C2 (length against product, evaluated on the code): for
    [Params = [{a: []}, {b: [x, y]}]] and no Include the lengths are 0 and 2,
    their product is 0 and [CountCombinations] is 0, but [FanOut] returns two
    combinations. *)
Theorem FanOut_length_differs_from_product :
  let ps := [arrayParam "a" []; arrayParam "b" ["x"; "y"]] in
  let m := mkMatrix (Some ps) None in
  product (arrayLengths ps) = 0%nat
  ∧ CountCombinations (Some m) = Ok 0
  ∧ FanOut (Some m) = Ok [[stringParam "b" "x"]; [stringParam "b" "y"]].
Proof. repeat split; vm_compute; reflexivity. Qed.

(** C8: with nil or empty [Params], [FanOut] returns the empty sequence, and
    two matrices that differ only in [Include] fan out identically. *)
Theorem FanOut_ignores_Include :
  (∀ inc, FanOut (Some (mkMatrix None inc)) = Ok [])
  ∧ (∀ inc, FanOut (Some (mkMatrix (Some []) inc)) = Ok [])
  ∧ (∀ ps inc1 inc2,
       FanOut (Some (mkMatrix ps inc1)) = FanOut (Some (mkMatrix ps inc2))).
Proof. repeat split. Qed.

End FanOutDegenerate.

(** ** Counting without parameters, on the nil matrix, and the bound *)

Section CounterClaims.

(** C10: on the nil [*Matrix], [HasParams] and [HasInclude] are false, no
    field of the receiver is read, and [CountCombinations] returns 0. *)
Theorem CountCombinations_nil_receiver :
  HasParams None = false ∧ HasInclude None = false
  ∧ countGeneratedCombinationsFromParams None = Ok 0
  ∧ countNewCombinationsFromInclude None = Ok 0
  ∧ CountCombinations None = Ok 0.
Proof. repeat split. Qed.

(** C6: when [Params] is nil or empty and [Include] is not empty,
    [CountCombinations] is the length of [Include] (any Go slice has a length
    that fits in an [int]); with nil [Params] and the single entry
    [{extra: {OS: windows}}] the count is 1. *)
Theorem CountCombinations_without_params :
  (∀ m, elems (Matrix_Params m) = [] → elems (Matrix_Include m) ≠ [] →
        GoInt.len (elems (Matrix_Include m)) ≤ GoInt.max_int →
        CountCombinations (Some m) = Ok (GoInt.len (elems (Matrix_Include m))))
  ∧ CountCombinations
      (Some (mkMatrix None (Some [mkIncludeParams "extra" [stringParam "OS" "windows"]])))
    = Ok 1.
Proof.
  split; [|vm_compute; reflexivity].
  intros m Hps Hinc Hfit.
  unfold CountCombinations, countGeneratedCombinationsFromParams,
    countNewCombinationsFromInclude.
  rewrite (proj2 (HasParams_false m) Hps), (proj2 (HasInclude_true m) Hinc). simpl.
  unfold GoInt.add. rewrite Z.add_0_l, wrap_small; [done|].
  unfold GoInt.len, GoInt.min_int in *. lia.
Qed.

Lemma CountCombinations_without_params_witness :
  CountCombinations
    (Some (mkMatrix (Some []) (Some [mkIncludeParams "extra" [stringParam "OS" "windows"];
                                     mkIncludeParams "more" []])))
  = Ok 2.
Proof.
  apply (proj1 CountCombinations_without_params
           (mkMatrix (Some []) (Some [mkIncludeParams "extra" [stringParam "OS" "windows"];
                                      mkIncludeParams "more" []]))).
  - reflexivity.
  - simpl. discriminate.
  - vm_compute. discriminate.
Defined.

Lemma CountCombinations_two_params p1 p2 inc :
  length (ArrayVal (Value p1)) = 4%nat → length (ArrayVal (Value p2)) = 5%nat →
  elems inc = [] →
  CountCombinations (Some (mkMatrix (Some [p1; p2]) inc)) = Ok 20.
Proof.
  intros H1 H2 Hinc.
  unfold CountCombinations, countGeneratedCombinationsFromParams,
    countNewCombinationsFromInclude.
  rewrite (proj2 (HasInclude_false (mkMatrix (Some [p1; p2]) inc)) Hinc).
  simpl. unfold GoInt.len. rewrite H1, H2. vm_compute. reflexivity.
Qed.

(** C5: the bound check reports an error exactly when [CountCombinations]
    exceeds the configured maximum, and the error is the out-of-bounds error
    for the computed count and the range from 0 to the maximum, at field
    [matrix]; two parameters of lengths 4 and 5 (no Include) with maximum 10
    give the error citing 20 and [0, 10], and with a maximum of at least 20
    there is no error. *)
Theorem validateCombinationsCount_bound :
  (∀ ctx m, ∃ count,
      let max := DefaultMaxMatrixCombinationsCount ctx in
      CountCombinations m = Ok count
      ∧ (validateCombinationsCount ctx m ≠ Ok [] ↔ count > max)
      ∧ (count > max →
         validateCombinationsCount ctx m = Ok [ErrOutOfBoundsValue count 0 max "matrix"])
      ∧ (count ≤ max → validateCombinationsCount ctx m = Ok []))
  ∧ (∀ p1 p2 inc max,
       length (ArrayVal (Value p1)) = 4%nat → length (ArrayVal (Value p2)) = 5%nat →
       elems inc = [] →
       let m := Some (mkMatrix (Some [p1; p2]) inc) in
       (max = 10 → validateCombinationsCount (mkDefaults max) m
                   = Ok [ErrOutOfBoundsValue 20 0 10 "matrix"])
       ∧ (20 ≤ max → validateCombinationsCount (mkDefaults max) m = Ok [])).
Proof.
  split.
  - intros ctx m. destruct (CountCombinations_total m) as [count Hc].
    exists count. cbn zeta. unfold validateCombinationsCount. rewrite Hc. simpl.
    destruct (Z.gtb_spec count (DefaultMaxMatrixCombinationsCount ctx)) as [Hgt|Hle].
    + repeat split; try done; intros; lia.
    + repeat split; try done; intros; lia.
  - intros p1 p2 inc max H1 H2 Hinc m. subst m.
    unfold validateCombinationsCount.
    rewrite (CountCombinations_two_params p1 p2 inc H1 H2 Hinc). simpl.
    split.
    + by intros ->.
    + intros Hmax. destruct (Z.gtb_spec 20 max) as [Hgt|Hle]; [lia|done].
Qed.

Lemma validateCombinationsCount_bound_witness :
  validateCombinationsCount (mkDefaults 10)
    (Some (mkMatrix (Some [arrayParam "p" ["1"; "2"; "3"; "4"];
                           arrayParam "q" ["a"; "b"; "c"; "d"; "e"]]) None))
  = Ok [ErrOutOfBoundsValue 20 0 10 "matrix"].
Proof.
  apply (proj1 (proj2 validateCombinationsCount_bound
                  (arrayParam "p" ["1"; "2"; "3"; "4"])
                  (arrayParam "q" ["a"; "b"; "c"; "d"; "e"])
                  None 10 eq_refl eq_refl eq_refl)).
  reflexivity.
Defined.

End CounterClaims.

(** ** Counting the Include entries *)

Section IncludeCount.

Lemma lookup_extractParamMapArrVals_None (ps : Params) k :
  extractParamMapArrVals ps !! k = None ↔ k ∉ Name <$> ps.
Proof.
  unfold extractParamMapArrVals.
  assert (Hgen : ∀ acc : gmap string (list string),
             foldl (fun paramsMap p => <[Name p := ArrayVal (Value p)]> paramsMap) acc ps !! k
             = None ↔ acc !! k = None ∧ k ∉ Name <$> ps).
  { induction ps as [|p ps IH]; intros acc; cbn [foldl fmap list_fmap].
    - split; [intros H; split; [done|apply not_elem_of_nil]|by intros [? _]].
    - rewrite IH, not_elem_of_cons. destruct (decide (Name p = k)) as [<-|Hne].
      + rewrite lookup_insert_eq. split; [by intros [? _]|by intros [_ [? _]]].
      + rewrite lookup_insert_ne by done.
        split; [intros [? ?]|intros [? [_ ?]]]; repeat split; congruence. }
  rewrite Hgen, lookup_empty. split; [by intros [_ ?]|done].
Qed.

Lemma scanIncludeParams_present mp p rest count :
  valuePresent mp p = true → scanIncludeParams mp (p :: rest) count = count.
Proof.
  unfold valuePresent. simpl. destruct (mp !! Name p) as [val|]; [|done].
  by intros ->.
Qed.

Lemma scanIncludeParams_absent mp p rest count :
  valueAbsent mp p = true →
  scanIncludeParams mp (p :: rest) count = scanIncludeParams mp rest (GoInt.incr count).
Proof.
  unfold valueAbsent. simpl. destruct (mp !! Name p) as [val|]; [|done].
  by intros ->.
Qed.

Lemma scanIncludeParams_unmapped mp p rest count :
  mp !! Name p = None →
  scanIncludeParams mp (p :: rest) count = scanIncludeParams mp rest count.
Proof. simpl. by intros ->. Qed.

Lemma scanIncludeParams_iter mp params count :
  scanIncludeParams mp params count
  = Nat.iter (entryContribution mp params) GoInt.incr count.
Proof.
  revert count. unfold entryContribution.
  induction params as [|p rest IH]; intros count; [done|].
  cbn [scanIncludeParams beforeFirstPresent]. unfold valuePresent at 1.
  destruct (mp !! Name p) as [val|] eqn:Hk.
  - destruct (slices_Contains val (StringVal (Value p))) eqn:Hc; simpl; [done|].
    unfold valueAbsent at 1. rewrite Hk, Hc. simpl.
    by rewrite IH, <- Nat.iter_succ_r.
  - simpl. unfold valueAbsent at 1. rewrite Hk. apply IH.
Qed.

Lemma foldl_scanIncludeParams mp (entries : IncludeParamsList) z :
  foldl (fun count include =>
           scanIncludeParams mp (IncludeParams_Params include) count)
        (GoInt.wrap z) entries
  = GoInt.wrap (z + Z.of_nat (sum_list
        ((fun e => entryContribution mp (IncludeParams_Params e)) <$> entries))).
Proof.
  revert z. induction entries as [|e entries IH]; intros z; simpl.
  - f_equal. lia.
  - rewrite scanIncludeParams_iter, iter_incr, IH. f_equal.
    rewrite Nat2Z.inj_add. unfold fmap. lia.
Qed.

Lemma countNewCombinationsFromInclude_eq m :
  elems (Matrix_Params m) ≠ [] → elems (Matrix_Include m) ≠ [] →
  countNewCombinationsFromInclude (Some m)
  = Ok (foldl (fun count include =>
                 scanIncludeParams (extractParamMapArrVals (elems (Matrix_Params m)))
                                   (IncludeParams_Params include) count)
              0 (elems (Matrix_Include m))).
Proof.
  intros Hps Hinc. unfold countNewCombinationsFromInclude.
  by rewrite (proj2 (HasParams_true m) Hps), (proj2 (HasInclude_true m) Hinc).
Qed.

(** C3, as the code has it: with non-empty [Params] and non-empty [Include],
    the Include contribution is the sum, reduced to an [int], of what each
    entry contributes; scanning an entry's params in order, a param whose
    name is in the mapping and whose value is present stops the scan and adds
    nothing further (what the entry has gathered so far is kept), a param
    whose name is in the mapping and whose value is absent adds 1 and the
    scan goes on with the next param of the entry; so an entry contributes
    the number of absent-valued params before its first present-valued one. *)
Theorem countNewCombinationsFromInclude_scan m :
  elems (Matrix_Params m) ≠ [] → elems (Matrix_Include m) ≠ [] →
  let mp := extractParamMapArrVals (elems (Matrix_Params m)) in
  countNewCombinationsFromInclude (Some m)
  = Ok (GoInt.wrap (Z.of_nat (sum_list
         ((fun e => entryContribution mp (IncludeParams_Params e))
            <$> elems (Matrix_Include m)))))
  ∧ (∀ p rest count,
       valuePresent mp p = true → scanIncludeParams mp (p :: rest) count = count)
  ∧ (∀ p rest count,
       valueAbsent mp p = true →
       scanIncludeParams mp (p :: rest) count
       = scanIncludeParams mp rest (GoInt.incr count))
  ∧ (∀ params count,
       scanIncludeParams mp params count
       = Nat.iter (entryContribution mp params) GoInt.incr count).
Proof.
  intros Hps Hinc mp. repeat split.
  - rewrite countNewCombinationsFromInclude_eq by done.
    change 0 with (GoInt.wrap 0) at 1. by rewrite foldl_scanIncludeParams.
  - apply scanIncludeParams_present.
  - apply scanIncludeParams_absent.
  - apply scanIncludeParams_iter.
Qed.

Lemma countNewCombinationsFromInclude_scan_witness :
  countNewCombinationsFromInclude
    (Some (mkMatrix (Some [arrayParam "a" ["x"]; arrayParam "b" ["x"]])
                    (Some [mkIncludeParams "e" [stringParam "a" "z"; stringParam "b" "x"];
                           mkIncludeParams "f" [stringParam "a" "y"; stringParam "b" "w"]])))
  = Ok 3.
Proof.
  apply (proj1 (countNewCombinationsFromInclude_scan
           (mkMatrix (Some [arrayParam "a" ["x"]; arrayParam "b" ["x"]])
                     (Some [mkIncludeParams "e" [stringParam "a" "z"; stringParam "b" "x"];
                            mkIncludeParams "f" [stringParam "a" "y"; stringParam "b" "w"]]))
           ltac:(discriminate) ltac:(discriminate))).
Defined.

(** C3, as stated, fails: in the entry [{a: z, b: x}] against
    [Params = [{a: [x]}, {b: [x]}]] the scan reaches [b], whose name is in the
    mapping and whose value is present, yet the entry has contributed 1. *)
Lemma include_entry_present_not_zero :
  ¬ (∀ m e pre p post,
       elems (Matrix_Params m) ≠ [] → e ∈ elems (Matrix_Include m) →
       let mp := extractParamMapArrVals (elems (Matrix_Params m)) in
       IncludeParams_Params e = pre ++ p :: post →
       Forall (fun q => valuePresent mp q = false) pre →
       valuePresent mp p = true →
       scanIncludeParams mp (IncludeParams_Params e) 0 = 0).
Proof.
  intros H.
  specialize (H (mkMatrix (Some [arrayParam "a" ["x"]; arrayParam "b" ["x"]])
                          (Some [mkIncludeParams "e" [stringParam "a" "z"; stringParam "b" "x"]]))
                (mkIncludeParams "e" [stringParam "a" "z"; stringParam "b" "x"])
                [stringParam "a" "z"] (stringParam "b" "x") []).
  cbn zeta in H.
  assert (Hscan : scanIncludeParams
            (extractParamMapArrVals [arrayParam "a" ["x"]; arrayParam "b" ["x"]])
            [stringParam "a" "z"; stringParam "b" "x"] 0 = 1) by (vm_compute; reflexivity).
  simpl elems in H. simpl IncludeParams_Params in H. rewrite Hscan in H.
  discriminate H.
  - discriminate.
  - apply list_elem_of_singleton. reflexivity.
  - reflexivity.
  - repeat constructor.
  - vm_compute. reflexivity.
Qed.

(** C9: with non-empty [Params], an Include entry none of whose param names
    is a name of [Matrix.Params] leaves the running count as it found it,
    however many params it has, and [CountCombinations] is the same with the
    entry as without it. *)
Theorem include_entry_unknown_names ps l1 e l2 :
  ps ≠ [] →
  Forall (fun p => Name p ∉ Name <$> ps) (IncludeParams_Params e) →
  (∀ count,
     scanIncludeParams (extractParamMapArrVals ps) (IncludeParams_Params e) count = count)
  ∧ entryContribution (extractParamMapArrVals ps) (IncludeParams_Params e) = 0%nat
  ∧ CountCombinations (Some (mkMatrix (Some ps) (Some (l1 ++ e :: l2))))
    = CountCombinations (Some (mkMatrix (Some ps) (Some (l1 ++ l2)))).
Proof.
  intros Hps Hnames.
  assert (Hscan : ∀ count,
             scanIncludeParams (extractParamMapArrVals ps) (IncludeParams_Params e) count
             = count).
  { induction Hnames as [|p rest Hp _ IH]; intros count; [done|].
    rewrite scanIncludeParams_unmapped; [apply IH|].
    by apply lookup_extractParamMapArrVals_None. }
  split; [exact Hscan|]. split.
  { unfold entryContribution.
    induction Hnames as [|p rest Hp _ IH]; [done|].
    apply lookup_extractParamMapArrVals_None in Hp.
    cbn [beforeFirstPresent]. unfold valuePresent at 1. rewrite Hp.
    cbn [List.filter]. unfold valueAbsent at 1. rewrite Hp. apply IH.
    intros count. specialize (Hscan count).
    by rewrite scanIncludeParams_unmapped in Hscan. }
  assert (Hnew : countNewCombinationsFromInclude
                   (Some (mkMatrix (Some ps) (Some (l1 ++ e :: l2))))
                 = countNewCombinationsFromInclude
                     (Some (mkMatrix (Some ps) (Some (l1 ++ l2))))).
  { rewrite (countNewCombinationsFromInclude_eq (mkMatrix (Some ps) (Some (l1 ++ e :: l2))))
      by (try done; simpl; by destruct l1).
    destruct (decide (l1 ++ l2 = [])) as [Hnil|Hcons].
    - apply app_eq_nil in Hnil as [-> ->]. simpl. by rewrite Hscan.
    - rewrite (countNewCombinationsFromInclude_eq (mkMatrix (Some ps) (Some (l1 ++ l2))))
        by done.
      simpl. rewrite !foldl_app. cbn [foldl]. by rewrite Hscan. }
  unfold CountCombinations. by rewrite Hnew.
Qed.

Lemma include_entry_unknown_names_witness :
  CountCombinations
    (Some (mkMatrix (Some [arrayParam "OS" ["linux"; "mac"]])
                    (Some ([mkIncludeParams "known" [stringParam "OS" "windows"]]
                           ++ mkIncludeParams "unknown" [stringParam "GO" "1.20"; stringParam "ARCH" "arm"]
                           :: []))))
  = CountCombinations
      (Some (mkMatrix (Some [arrayParam "OS" ["linux"; "mac"]])
                      (Some ([mkIncludeParams "known" [stringParam "OS" "windows"]] ++ [])))).
Proof.
  apply (include_entry_unknown_names
           [arrayParam "OS" ["linux"; "mac"]]
           [mkIncludeParams "known" [stringParam "OS" "windows"]]
           (mkIncludeParams "unknown" [stringParam "GO" "1.20"; stringParam "ARCH" "arm"])
           []).
  - discriminate.
  - repeat constructor; simpl; intros Hin;
      apply list_elem_of_singleton in Hin; discriminate Hin.
Defined.

End IncludeCount.

(** ** Order of the fan-out *)

Section FanOutOrder.

Lemma toParams_eq cs :
  toParams cs
  = (fun c => (fun key => stringParam key (index c key)) <$> sortKeys (rangeKeys c))
      <$> cs.
Proof.
  unfold toParams. apply map_ext. intros c. simpl.
  by rewrite foldl_snoc_fmap.
Qed.

Lemma toParams_names c :
  Name <$> ((fun key => stringParam key (index c key)) <$> sortKeys (rangeKeys c))
  = sortKeys (rangeKeys c).
Proof. rewrite <- list_fmap_compose. apply list_fmap_id. Qed.

(** Position [i] of [length l] blocks, each a copy of [cs] transformed by the
    block's value: block [i / n], offset [i mod n]. *)
Lemma lookup_bind_blocks {A B} (g : B → A → A) (l : list B) (cs : list A) i c :
  (l ≫= (fun v => g v <$> cs)) !! i = Some c →
  ∃ v c0, l !! (i / length cs)%nat = Some v
          ∧ cs !! (i mod length cs)%nat = Some c0 ∧ c = g v c0.
Proof.
  revert i. induction l as [|v l IH]; intros i; [done|].
  cbn [mbind list_bind]. intros Hi.
  assert (Hn : (0 < length cs)%nat).
  { destruct cs; simpl; [|lia]. exfalso. revert Hi. simpl.
    clear. revert i. induction l as [|w l IH]; intros i; [done|]. apply IH. }
  destruct (decide (i < length cs)%nat) as [Hlt|Hge].
  - rewrite lookup_app_l in Hi by (by rewrite length_fmap).
    rewrite list_lookup_fmap in Hi.
    destruct (cs !! i) as [c0|] eqn:Hc0; [|done]. injection Hi as <-.
    exists v, c0. by rewrite Nat.div_small, Nat.mod_small.
  - rewrite lookup_app_r in Hi by (rewrite length_fmap; lia).
    rewrite length_fmap in Hi.
    destruct (IH _ Hi) as (v' & c0 & Hv' & Hc0 & ->).
    exists v', c0.
    replace i with ((i - length cs) + 1 * length cs)%nat at 1 2 by lia.
    rewrite Nat.div_add, Nat.Div0.mod_add by lia.
    rewrite Nat.add_1_r. done.
Qed.

Lemma digit_of_remainder i s l r :
  (0 < s)%nat → (0 < l)%nat →
  (((i mod (s * l * r)) / s) mod l = (i / s) mod l)%nat.
Proof.
  intros Hs Hl. rewrite <- Nat.mul_assoc, Nat.Div0.mod_mul_r.
  rewrite (Nat.mul_comm s), Nat.div_add by lia.
  rewrite Nat.div_small by (apply Nat.mod_upper_bound; lia).
  rewrite Nat.add_0_l, Nat.Div0.mod_mul_r.
  rewrite (Nat.mul_comm l), Nat.Div0.mod_add.
  apply Nat.Div0.mod_mod.
Qed.

Lemma product_take_drop ps k p :
  ps !! k = Some p →
  product (arrayLengths ps)
  = (stride ps k * length (ArrayVal (Value p))
     * product (arrayLengths (drop (S k) ps)))%nat.
Proof.
  intros Hk. rewrite <- (take_drop_middle ps k p Hk) at 1.
  unfold stride, arrayLengths. rewrite fmap_app, product_app, fmap_cons.
  change (product (?x :: ?l)) with (x * product l)%nat.
  apply Nat.mul_assoc.
Qed.

(** The working list after the loop, read by position: the [k]-th declared
    parameter (if no later parameter reuses its name) holds its value number
    [(i / stride) mod length] in combination [i]. *)
Lemma fanOutLoop_lookup ps :
  Forall (fun l => (0 < l)%nat) (arrayLengths ps) →
  ∀ i c k p,
    fanOutLoop ps !! i = Some c → ps !! k = Some p →
    Name p ∉ Name <$> drop (S k) ps →
    ∃ v, ArrayVal (Value p) !! ((i / stride ps k) mod length (ArrayVal (Value p)))%nat
         = Some v
         ∧ c !! Name p = Some v.
Proof.
  induction ps as [|q ps IH] using rev_ind; [done|].
  intros Hpos i c k p Hi Hk Hfresh.
  unfold arrayLengths in Hpos. rewrite fmap_app in Hpos.
  apply Forall_app in Hpos as [Hps Hq].
  rewrite fanOutLoop_snoc in Hi.
  destruct (fanOutLoop ps) as [|c1 cs] eqn:Hloop.
  - (* [q] is the first parameter *)
    destruct ps as [|q0 ps].
    2:{ pose proof (length_fanOutLoop (q0 :: ps) ltac:(done) Hps) as Hlen.
        pose proof (product_pos _ Hps) as Hpp.
        rewrite Hloop in Hlen. unfold arrayLengths in Hlen.
        rewrite <- Hlen in Hpp. simpl in Hpp. lia. }
    rewrite fanOutMatrixParams_nil, initializeCombinations_eq, list_lookup_fmap in Hi.
    destruct (ArrayVal (Value q) !! i) as [v|] eqn:Hv; [|done]. injection Hi as <-.
    destruct k as [|k]; [|by destruct k]. injection Hk as <-.
    exists v. split; [|by rewrite lookup_singleton_eq].
    unfold stride. cbn [take arrayLengths fmap list_fmap product foldr].
    rewrite Nat.div_1_r, Nat.mod_small; [done|].
    by eapply lookup_lt_Some.
  - rewrite fanOutMatrixParams_cons, distribute_eq in Hi.
    apply lookup_bind_blocks in Hi as (v & c0 & Hv & Hc0 & ->).
    assert (Hlen : length (c1 :: cs) = product (arrayLengths ps)).
    { rewrite <- Hloop. apply length_fanOutLoop; [|done].
      intros ->. discriminate Hloop. }
    rewrite Hlen in Hv, Hc0.
    destruct (decide (k < length ps)%nat) as [Hlt|Hge].
    + rewrite lookup_app_l in Hk by done.
      rewrite drop_app_le, fmap_app, not_elem_of_app in Hfresh by lia.
      destruct Hfresh as [Hfresh Hq'].
      destruct (IH Hps _ _ _ _ Hc0 Hk Hfresh) as (v' & Hv' & Hc').
      exists v'. split.
      * unfold stride in *. rewrite take_app_le by lia.
        rewrite <- Hv'. f_equal.
        rewrite (product_take_drop ps k p Hk). unfold stride.
        symmetry. apply digit_of_remainder.
        -- apply product_pos. unfold arrayLengths.
           rewrite <- (take_drop k ps), fmap_app in Hps.
           by apply Forall_app in Hps as [? _].
        -- rewrite Forall_forall in Hps. apply Hps.
           apply list_elem_of_fmap. exists p. split; [done|].
           by eapply list_elem_of_lookup_2.
      * rewrite lookup_insert_ne; [done|].
        intros Heq. apply Hq'. simpl. rewrite Heq. apply list_elem_of_singleton. done.
    + pose proof (lookup_lt_Some _ _ _ Hk) as Hk'. rewrite length_app in Hk'. simpl in Hk'.
      assert (k = length ps) as -> by lia.
      rewrite list_lookup_middle in Hk by done. injection Hk as <-.
      exists v. split; [|by rewrite lookup_insert_eq].
      unfold stride. rewrite take_app_length.
      rewrite Nat.mod_small; [done|]. by eapply lookup_lt_Some.
Qed.

Lemma FanOut_Some m : FanOut (Some m) = Ok (toParams (fanOutLoop (elems (Matrix_Params m)))).
Proof. done. Qed.

(** C4: when every array of [Params] is non-empty, combination number [i] of
    the output gives the [k]-th declared parameter its value number
    [(i / stride) mod length], where [stride] is the product of the lengths
    declared before it (for a name no later parameter declares again): the
    first parameter changes at every step, a later one only after all
    earlier ones have cycled; and for [Params = [{OS: [linux, mac]},
    {VER: [1, 2]}]] the output is exactly [{OS: linux, VER: 1}],
    [{OS: mac, VER: 1}], [{OS: linux, VER: 2}], [{OS: mac, VER: 2}]. *)
Theorem FanOut_order :
  (∀ m outs,
     Forall (fun l => (0 < l)%nat) (arrayLengths (elems (Matrix_Params m))) →
     FanOut (Some m) = Ok outs →
     (elems (Matrix_Params m) ≠ [] →
      length outs = product (arrayLengths (elems (Matrix_Params m))))
     ∧ ∀ i out k p,
         outs !! i = Some out → elems (Matrix_Params m) !! k = Some p →
         Name p ∉ Name <$> drop (S k) (elems (Matrix_Params m)) →
         ∃ v, ArrayVal (Value p)
                !! ((i / stride (elems (Matrix_Params m)) k)
                    mod length (ArrayVal (Value p)))%nat = Some v
              ∧ stringParam (Name p) v ∈ out)
  ∧ (∀ inc,
       FanOut (Some (mkMatrix (Some [arrayParam "OS" ["linux"; "mac"];
                                     arrayParam "VER" ["1"; "2"]]) inc))
       = Ok [[stringParam "OS" "linux"; stringParam "VER" "1"];
             [stringParam "OS" "mac"; stringParam "VER" "1"];
             [stringParam "OS" "linux"; stringParam "VER" "2"];
             [stringParam "OS" "mac"; stringParam "VER" "2"]]).
Proof.
  split; [|intros inc; vm_compute; reflexivity].
  intros m outs Hpos Hout. rewrite FanOut_Some in Hout. injection Hout as <-.
  split.
  - intros Hne. unfold toParams. rewrite length_map. by apply length_fanOutLoop.
  - intros i out k p Hi Hk Hfresh.
    rewrite toParams_eq, list_lookup_fmap in Hi.
    destruct (fanOutLoop (elems (Matrix_Params m)) !! i) as [c|] eqn:Hc; [|done].
    injection Hi as <-.
    destruct (fanOutLoop_lookup _ Hpos _ _ _ _ Hc Hk Hfresh) as (v & Hv & Hcv).
    exists v. split; [done|].
    apply list_elem_of_fmap. exists (Name p). split.
    + unfold index. by rewrite Hcv.
    + rewrite sortKeys_Permutation. apply rangeKeys_elem. by exists v.
Qed.

Lemma FanOut_order_witness :
  ∃ v, ArrayVal (Value (arrayParam "VER" ["1"; "2"]))
         !! ((2 / stride [arrayParam "OS" ["linux"; "mac"]; arrayParam "VER" ["1"; "2"]] 1)
             mod length (ArrayVal (Value (arrayParam "VER" ["1"; "2"]))))%nat = Some v
       ∧ stringParam (Name (arrayParam "VER" ["1"; "2"])) v
         ∈ [stringParam "OS" "linux"; stringParam "VER" "2"].
Proof.
  apply (proj2 (proj1 FanOut_order
           (mkMatrix (Some [arrayParam "OS" ["linux"; "mac"]; arrayParam "VER" ["1"; "2"]]) None)
           [[stringParam "OS" "linux"; stringParam "VER" "1"];
            [stringParam "OS" "mac"; stringParam "VER" "1"];
            [stringParam "OS" "linux"; stringParam "VER" "2"];
            [stringParam "OS" "mac"; stringParam "VER" "2"]]
           ltac:(repeat constructor) ltac:(vm_compute; reflexivity))
         2%nat [stringParam "OS" "linux"; stringParam "VER" "2"] 1%nat
         (arrayParam "VER" ["1"; "2"]) eq_refl eq_refl).
  simpl. apply not_elem_of_nil.
Defined.

(** C7: every parameter list [FanOut] returns is in strictly increasing
    lexicographic order of parameter name; the order does not depend on the
    order in which the keys of a combination are enumerated, nor on the order
    in which they were inserted. *)
Theorem FanOut_params_sorted :
  (∀ m outs, FanOut m = Ok outs →
             Forall (fun out => StronglySorted string_lt (Name <$> out)) outs)
  ∧ (∀ (c : Combination) ks, ks ≡ₚ rangeKeys c → sortKeys ks = (sortCombination c).1)
  ∧ (∀ kvs kvs' : list (string * string),
       NoDup kvs.*1 → kvs ≡ₚ kvs' →
       toParams [list_to_map kvs] = toParams [list_to_map kvs']).
Proof.
  repeat split.
  - intros [m|] outs Hout; [|done].
    rewrite FanOut_Some in Hout. injection Hout as <-.
    rewrite toParams_eq. apply Forall_fmap, Forall_forall. intros c _. simpl.
    rewrite toParams_names. apply sortKeys_sorted, rangeKeys_NoDup.
  - intros c ks Hks. simpl. by apply sortKeys_proper.
  - intros kvs kvs' Hnd Hp. by rewrite (list_to_map_proper kvs kvs' Hnd Hp).
Qed.

Lemma FanOut_params_sorted_witness :
  Forall (fun out => StronglySorted string_lt (Name <$> out))
         [[stringParam "OS" "linux"; stringParam "VER" "1"];
          [stringParam "OS" "linux"; stringParam "VER" "2"];
          [stringParam "OS" "mac"; stringParam "VER" "1"];
          [stringParam "OS" "mac"; stringParam "VER" "2"]].
Proof.
  apply (proj1 FanOut_params_sorted
           (Some (mkMatrix (Some [arrayParam "VER" ["1"; "2"];
                                  arrayParam "OS" ["linux"; "mac"]]) None))).
  vm_compute. reflexivity.
Defined.

End FanOutOrder.

(** ** What the fan-out contains *)

#[local] Set Warnings "-clear-no-such-hyp".

Section FanOutContents.

(** Every binding of every combination the loop builds comes from a declared
    parameter of that name and from its array. *)
Lemma fanOutLoop_sound ps (c : Combination) k v :
  c ∈ fanOutLoop ps → c !! k = Some v →
  ∃ p, p ∈ ps ∧ Name p = k ∧ v ∈ ArrayVal (Value p).
Proof.
  revert c. induction ps as [|q ps IH] using rev_ind; intros c Hc Hk.
  - by apply elem_of_nil in Hc.
  - rewrite fanOutLoop_snoc in Hc.
    destruct (fanOutLoop ps) as [|c1 cs] eqn:Hloop.
    + rewrite fanOutMatrixParams_nil, initializeCombinations_eq in Hc.
      apply list_elem_of_fmap in Hc as (v' & -> & Hv').
      apply lookup_singleton_Some in Hk as [<- <-].
      exists q. split; [|done]. apply elem_of_app. right. by left.
    + rewrite fanOutMatrixParams_cons, distribute_eq in Hc.
      apply list_elem_of_bind in Hc as (v' & Hc & Hv').
      apply list_elem_of_fmap in Hc as (c0 & -> & Hc0).
      apply lookup_insert_Some in Hk as [[<- <-]|[Hne Hk]].
      * exists q. split; [|done]. apply elem_of_app. right. by left.
      * destruct (IH c0 Hc0 Hk) as (p & Hp & Hname & Hv).
        exists p. split; [|done]. apply elem_of_app. by left.
Qed.

(** With every array non-empty, each combination binds exactly the declared
    names. *)
Lemma fanOutLoop_dom ps (c : Combination) :
  Forall (fun l => (0 < l)%nat) (arrayLengths ps) →
  c ∈ fanOutLoop ps → dom c = list_to_set (Name <$> ps).
Proof.
  revert c. induction ps as [|q ps IH] using rev_ind; intros c Hpos Hc.
  - by apply elem_of_nil in Hc.
  - unfold arrayLengths in Hpos. rewrite fmap_app in Hpos.
    apply Forall_app in Hpos as [Hps Hq].
    rewrite fanOutLoop_snoc in Hc. rewrite fmap_app, list_to_set_app_L. simpl.
    destruct (fanOutLoop ps) as [|c1 cs] eqn:Hloop.
    + destruct ps as [|q0 ps].
      2:{ pose proof (length_fanOutLoop (q0 :: ps) ltac:(done) Hps) as Hlen.
          pose proof (product_pos _ Hps) as Hpp.
          rewrite Hloop in Hlen. unfold arrayLengths in Hlen.
          rewrite <- Hlen in Hpp. simpl in Hpp. lia. }
      rewrite fanOutMatrixParams_nil, initializeCombinations_eq in Hc.
      apply list_elem_of_fmap in Hc as (v' & -> & Hv').
      rewrite dom_singleton_L. set_solver.
    + rewrite fanOutMatrixParams_cons, distribute_eq in Hc.
      apply list_elem_of_bind in Hc as (v' & Hc & Hv').
      apply list_elem_of_fmap in Hc as (c0 & -> & Hc0).
      rewrite dom_insert_L, (IH c0 Hps Hc0). set_solver.
Qed.

(** With distinct names, every assignment of one array value to each declared
    parameter is built by the loop. *)
Lemma fanOutLoop_complete ps (c : Combination) :
  ps ≠ [] → NoDup (Name <$> ps) →
  dom c = list_to_set (Name <$> ps) →
  (∀ p, p ∈ ps → ∃ v, c !! Name p = Some v ∧ v ∈ ArrayVal (Value p)) →
  c ∈ fanOutLoop ps.
Proof.
  revert c. induction ps as [|q ps IH] using rev_ind; [done|].
  intros c _ Hnd Hdom Hval.
  rewrite fmap_app in Hnd, Hdom. apply NoDup_app in Hnd as (Hnd & Hfresh & _).
  assert (Hq : Name q ∉ Name <$> ps).
  { intros Hin. apply (Hfresh _ Hin). by left. }
  destruct (Hval q) as (vq & Hcq & Hvq); [apply elem_of_app; right; by left|].
  rewrite list_to_set_app_L in Hdom. simpl in Hdom.
  rewrite fanOutLoop_snoc.
  destruct ps as [|q0 ps].
  - rewrite fanOutMatrixParams_nil, initializeCombinations_eq.
    apply list_elem_of_fmap. exists vq. split; [|done].
    apply map_eq. intros k. destruct (decide (k = Name q)) as [->|Hne].
    + by rewrite lookup_singleton_eq.
    + rewrite lookup_singleton_ne by done.
      apply not_elem_of_dom. rewrite Hdom. set_solver.
  - assert (Hc0 : delete (Name q) c ∈ fanOutLoop (q0 :: ps)).
    { apply IH; [done|done| |].
      - rewrite dom_delete_L, Hdom.
        assert (Name q ∉ (list_to_set (Name <$> q0 :: ps) : gset string))
          by (by rewrite elem_of_list_to_set).
        set_solver.
      - intros p Hp. destruct (Hval p) as (v & Hcv & Hv); [apply elem_of_app; by left|].
        exists v. split; [|done]. rewrite lookup_delete_ne; [done|].
        intros Heq. apply Hq. rewrite Heq. apply list_elem_of_fmap. by exists p. }
    destruct (fanOutLoop (q0 :: ps)) as [|c1 cs] eqn:Hloop; [by apply elem_of_nil in Hc0|].
    rewrite fanOutMatrixParams_cons, distribute_eq.
    apply list_elem_of_bind. exists vq. split; [|done].
    apply list_elem_of_fmap. exists (delete (Name q) c). split; [|done].
    by rewrite insert_delete_eq, insert_id.
Qed.

Lemma toParams_elem (cs : Combinations) out :
  out ∈ toParams cs ↔
  ∃ c, c ∈ cs
       ∧ out = (fun key => stringParam key (index c key)) <$> sortKeys (rangeKeys c).
Proof.
  rewrite toParams_eq, list_elem_of_fmap. split; intros (c & H1 & H2); by exists c.
Qed.

Lemma stringParam_elem (c : Combination) k v :
  stringParam k v ∈ (fun key => stringParam key (index c key)) <$> sortKeys (rangeKeys c)
  ↔ c !! k = Some v.
Proof.
  rewrite list_elem_of_fmap. split.
  - intros (key & Heq & Hkey). injection Heq as -> ->.
    rewrite sortKeys_Permutation in Hkey. apply rangeKeys_elem in Hkey as [v Hv].
    unfold index. by rewrite Hv.
  - intros Hk. exists k. split.
    + unfold index. by rewrite Hk.
    + rewrite sortKeys_Permutation. apply rangeKeys_elem. by exists v.
Qed.

(** X1: every parameter [FanOut] returns is of string type, bears the name
    of a parameter declared in [Matrix.Params], and has for value an element
    of that parameter's array. *)
Theorem FanOut_values_declared m outs out prm :
  FanOut (Some m) = Ok outs → out ∈ outs → prm ∈ out →
  Type_ (Value prm) = ParamTypeString ∧ ArrayVal (Value prm) = []
  ∧ ∃ p, p ∈ elems (Matrix_Params m) ∧ Name p = Name prm
         ∧ StringVal (Value prm) ∈ ArrayVal (Value p).
Proof.
  rewrite FanOut_Some. intros [= <-] Hout Hprm.
  apply toParams_elem in Hout as (c & Hc & ->).
  apply list_elem_of_fmap in Hprm as (key & -> & Hkey).
  rewrite sortKeys_Permutation in Hkey. apply rangeKeys_elem in Hkey as [v Hv].
  repeat split. simpl. unfold index. rewrite Hv. simpl.
  by apply (fanOutLoop_sound _ c).
Qed.

Lemma FanOut_values_declared_witness :
  Type_ (Value (stringParam "OS" "mac")) = ParamTypeString
  ∧ ArrayVal (Value (stringParam "OS" "mac")) = []
  ∧ ∃ p, p ∈ elems (Matrix_Params
                     (mkMatrix (Some [arrayParam "OS" ["linux"; "mac"];
                                      arrayParam "VER" ["1"; "2"]]) None))
         ∧ Name p = Name (stringParam "OS" "mac")
         ∧ StringVal (Value (stringParam "OS" "mac")) ∈ ArrayVal (Value p).
Proof.
  apply (FanOut_values_declared
           (mkMatrix (Some [arrayParam "OS" ["linux"; "mac"]; arrayParam "VER" ["1"; "2"]]) None)
           [[stringParam "OS" "linux"; stringParam "VER" "1"];
            [stringParam "OS" "mac"; stringParam "VER" "1"];
            [stringParam "OS" "linux"; stringParam "VER" "2"];
            [stringParam "OS" "mac"; stringParam "VER" "2"]]
           [stringParam "OS" "mac"; stringParam "VER" "1"]).
  - vm_compute. reflexivity.
  - apply list_elem_of_further, list_elem_of_here.
  - apply list_elem_of_here.
Defined.

(** X2: when every array of [Matrix.Params] is non-empty, each parameter list
    [FanOut] returns names every declared parameter, names nothing else, and
    names nothing twice. *)
Theorem FanOut_names_declared m outs out :
  Forall (fun l => (0 < l)%nat) (arrayLengths (elems (Matrix_Params m))) →
  FanOut (Some m) = Ok outs → out ∈ outs →
  NoDup (Name <$> out)
  ∧ ∀ name, name ∈ Name <$> out ↔ name ∈ Name <$> elems (Matrix_Params m).
Proof.
  intros Hpos. rewrite FanOut_Some. intros [= <-] Hout.
  apply toParams_elem in Hout as (c & Hc & ->).
  rewrite toParams_names. split.
  - rewrite sortKeys_Permutation. apply rangeKeys_NoDup.
  - intros name. rewrite sortKeys_Permutation, rangeKeys_elem, <- elem_of_dom.
    rewrite (fanOutLoop_dom _ c Hpos Hc). apply elem_of_list_to_set.
Qed.

Lemma FanOut_names_declared_witness :
  NoDup (Name <$> [stringParam "OS" "mac"; stringParam "VER" "1"])
  ∧ ∀ name, name ∈ Name <$> [stringParam "OS" "mac"; stringParam "VER" "1"]
            ↔ name ∈ Name <$> elems (Matrix_Params
                 (mkMatrix (Some [arrayParam "VER" ["1"; "2"];
                                  arrayParam "OS" ["linux"; "mac"]]) None)).
Proof.
  apply (FanOut_names_declared
           (mkMatrix (Some [arrayParam "VER" ["1"; "2"]; arrayParam "OS" ["linux"; "mac"]]) None)
           [[stringParam "OS" "linux"; stringParam "VER" "1"];
            [stringParam "OS" "linux"; stringParam "VER" "2"];
            [stringParam "OS" "mac"; stringParam "VER" "1"];
            [stringParam "OS" "mac"; stringParam "VER" "2"]]).
  - repeat constructor.
  - vm_compute. reflexivity.
  - apply list_elem_of_further, list_elem_of_further, list_elem_of_here.
Defined.

(** X3: when [Matrix.Params] is non-empty and its names are distinct, every
    assignment that gives each declared parameter one value of its array (and
    binds no other name) is one of the parameter lists [FanOut] returns. *)
Theorem FanOut_complete m outs (c : Combination) :
  elems (Matrix_Params m) ≠ [] → NoDup (Name <$> elems (Matrix_Params m)) →
  dom c = list_to_set (Name <$> elems (Matrix_Params m)) →
  (∀ p, p ∈ elems (Matrix_Params m) →
        ∃ v, c !! Name p = Some v ∧ v ∈ ArrayVal (Value p)) →
  FanOut (Some m) = Ok outs →
  ∃ out, out ∈ outs ∧ ∀ k v, stringParam k v ∈ out ↔ c !! k = Some v.
Proof.
  intros Hne Hnd Hdom Hval. rewrite FanOut_Some. intros [= <-].
  eexists. split.
  - apply toParams_elem. exists c. split; [|done]. by apply fanOutLoop_complete.
  - intros k v. apply stringParam_elem.
Qed.

Lemma FanOut_complete_witness :
  ∃ out, out ∈ [[stringParam "OS" "linux"; stringParam "VER" "1"];
                [stringParam "OS" "mac"; stringParam "VER" "1"];
                [stringParam "OS" "linux"; stringParam "VER" "2"];
                [stringParam "OS" "mac"; stringParam "VER" "2"]]
         ∧ ∀ k v, stringParam k v ∈ out
                  ↔ (<["OS" := "mac"]> {["VER" := "2"]} : Combination) !! k = Some v.
Proof.
  apply (FanOut_complete
           (mkMatrix (Some [arrayParam "OS" ["linux"; "mac"]; arrayParam "VER" ["1"; "2"]]) None)).
  - discriminate.
  - simpl. repeat constructor.
    + intros Hin. apply list_elem_of_singleton in Hin. discriminate Hin.
    + apply not_elem_of_nil.
  - rewrite dom_insert_L, dom_singleton_L. simpl.
    by rewrite (right_id_L ∅ (∪)).
  - intros p Hp. simpl in Hp.
    apply elem_of_cons in Hp as [->|Hp].
    + exists "mac". split; [reflexivity|]. apply list_elem_of_further, list_elem_of_here.
    + apply list_elem_of_singleton in Hp as ->.
      exists "2". split; [reflexivity|]. apply list_elem_of_further, list_elem_of_here.
  - vm_compute. reflexivity.
Defined.

(** X4: a parameter whose array is empty cuts the fan-out off from what was
    declared before it: [FanOut] returns what it returns for the parameters
    declared after it alone, and the empty sequence when it is declared
    last. *)
Theorem FanOut_after_empty_array m ps1 p ps2 :
  elems (Matrix_Params m) = ps1 ++ p :: ps2 → ArrayVal (Value p) = [] →
  FanOut (Some m) = FanOut (Some (mkMatrix (Some ps2) (Matrix_Include m)))
  ∧ (ps2 = [] → FanOut (Some m) = Ok []).
Proof.
  intros Hps Hp. rewrite !FanOut_Some, Hps, fanOutLoop_restart by done.
  split; [done|]. by intros ->.
Qed.

Lemma FanOut_after_empty_array_witness :
  FanOut (Some (mkMatrix (Some [arrayParam "OS" ["linux"; "mac"]; arrayParam "GO" [];
                                arrayParam "VER" ["1"; "2"]]) None))
  = FanOut (Some (mkMatrix (Some [arrayParam "VER" ["1"; "2"]]) None)).
Proof.
  apply (FanOut_after_empty_array
           (mkMatrix (Some [arrayParam "OS" ["linux"; "mac"]; arrayParam "GO" [];
                            arrayParam "VER" ["1"; "2"]]) None)
           [arrayParam "OS" ["linux"; "mac"]] (arrayParam "GO" [])
           [arrayParam "VER" ["1"; "2"]] eq_refl eq_refl).
Defined.

(** X5: [sortCombination] returns every key of the combination exactly once,
    in strictly increasing order, together with a map that has the same
    bindings as the combination it was given. *)
Theorem sortCombination_spec (c : Combination) :
  StronglySorted string_lt (sortCombination c).1
  ∧ NoDup (sortCombination c).1
  ∧ (∀ k, k ∈ (sortCombination c).1 ↔ is_Some (c !! k))
  ∧ (sortCombination c).2 = c.
Proof.
  repeat split.
  - apply sortKeys_sorted, rangeKeys_NoDup.
  - simpl. rewrite sortKeys_Permutation. apply rangeKeys_NoDup.
  - simpl. rewrite sortKeys_Permutation. apply rangeKeys_elem.
  - simpl. rewrite sortKeys_Permutation. apply rangeKeys_elem.
  - apply sortCombination_snd.
Qed.

End FanOutContents.

(** ** The count as a whole, and what the bound check buys *)

Section CountAsWhole.

Lemma wrap_add_r a b : GoInt.wrap (a + GoInt.wrap b) = GoInt.wrap (a + b).
Proof. by rewrite Z.add_comm, wrap_add_l, Z.add_comm. Qed.

Lemma foldl_scanIncludeParams_0 mp (entries : IncludeParamsList) :
  foldl (fun count include =>
           scanIncludeParams mp (IncludeParams_Params include) count)
        0 entries
  = GoInt.wrap (Z.of_nat (sum_list
        ((fun e => entryContribution mp (IncludeParams_Params e)) <$> entries))).
Proof. change 0 with (GoInt.wrap 0) at 1. by rewrite foldl_scanIncludeParams. Qed.

Lemma entryContribution_le mp params :
  (entryContribution mp params ≤ length params)%nat.
Proof.
  unfold entryContribution.
  induction params as [|p rest IH]; simpl; [lia|].
  destruct (valuePresent mp p); simpl; [lia|].
  destruct (valueAbsent mp p); simpl; lia.
Qed.

Lemma entryContribution_none_absent mp params :
  Forall (fun p => valueAbsent mp p = false) params →
  entryContribution mp params = 0%nat.
Proof.
  unfold entryContribution. induction 1 as [|p rest Hp _ IH]; simpl; [done|].
  destruct (valuePresent mp p); simpl; [done|]. by rewrite Hp.
Qed.

Lemma sum_entryContribution_zero mp (entries : IncludeParamsList) :
  (∀ e p, e ∈ entries → p ∈ IncludeParams_Params e → valueAbsent mp p = false) →
  sum_list ((fun e => entryContribution mp (IncludeParams_Params e)) <$> entries) = 0%nat.
Proof.
  induction entries as [|e es IH]; intros Hall; [done|].
  rewrite fmap_cons. cbn [sum_list sum_list_with].
  rewrite entryContribution_none_absent.
  - rewrite IH; [done|]. intros e1 p He1. apply Hall. by right.
  - apply Forall_forall. intros p Hp. apply (Hall e); [by left|done].
Qed.

(** X6: [CountCombinations] is the product of the array lengths (nothing
    when there are no Params) plus what the Include entries add (their number
    when there are no Params, otherwise for each entry the number of its
    absent-valued params before its first present-valued one), reduced to a
    64-bit [int]; it is that sum itself whenever the sum fits in an [int]. *)
Theorem CountCombinations_closed m :
  CountCombinations (Some m)
  = Ok (GoInt.wrap (Z.of_nat (paramsCount m + includeCount m)))
  ∧ (Z.of_nat (paramsCount m + includeCount m) ≤ GoInt.max_int →
     CountCombinations (Some m) = Ok (Z.of_nat (paramsCount m + includeCount m))).
Proof.
  assert (Hclosed : CountCombinations (Some m)
            = Ok (GoInt.wrap (Z.of_nat (paramsCount m + includeCount m)))).
  { unfold CountCombinations, paramsCount, includeCount.
    destruct (elems (Matrix_Params m)) as [|p ps] eqn:Hps.
    - unfold countGeneratedCombinationsFromParams, countNewCombinationsFromInclude.
      rewrite (proj2 (HasParams_false m) Hps).
      destruct (elems (Matrix_Include m)) as [|e es] eqn:Hinc.
      + by rewrite (proj2 (HasInclude_false m) Hinc).
      + rewrite (proj2 (HasInclude_true m)) by (by rewrite Hinc).
        simpl. by rewrite Hinc.
    - rewrite countGeneratedCombinationsFromParams_eq by (by rewrite Hps).
      rewrite Hps. simpl bind.
      destruct (elems (Matrix_Include m)) as [|e es] eqn:Hinc.
      + unfold countNewCombinationsFromInclude.
        rewrite (proj2 (HasInclude_false m) Hinc). simpl bind.
        unfold GoInt.add. rewrite wrap_add_l. do 2 f_equal. simpl. lia.
      + rewrite countNewCombinationsFromInclude_eq by (by rewrite ?Hps, ?Hinc).
        rewrite foldl_scanIncludeParams_0, Hps, Hinc. simpl bind.
        unfold GoInt.add. rewrite wrap_add_l, wrap_add_r. do 2 f_equal.
        rewrite <- Nat2Z.inj_add. reflexivity. }
  split; [done|]. intros Hfit. rewrite Hclosed. f_equal.
  apply wrap_small. unfold GoInt.min_int. lia.
Qed.

Lemma CountCombinations_closed_witness :
  CountCombinations
    (Some (mkMatrix (Some [arrayParam "a" ["x"; "y"]; arrayParam "b" ["x"]])
                    (Some [mkIncludeParams "e" [stringParam "a" "z"; stringParam "b" "x"]])))
  = Ok 3.
Proof.
  apply (proj2 (CountCombinations_closed
           (mkMatrix (Some [arrayParam "a" ["x"; "y"]; arrayParam "b" ["x"]])
                     (Some [mkIncludeParams "e" [stringParam "a" "z"; stringParam "b" "x"]])))).
  vm_compute. discriminate.
Defined.

(** X7: with non-empty Params, the Include entries add at least 0 and at
    most the number of params they hold between them (a number that, as the
    length of slices, fits in an [int]). *)
Theorem countNewCombinationsFromInclude_bounds m :
  elems (Matrix_Params m) ≠ [] →
  Z.of_nat (includeParamsTotal m) ≤ GoInt.max_int →
  ∃ n, countNewCombinationsFromInclude (Some m) = Ok n
       ∧ 0 ≤ n ≤ Z.of_nat (includeParamsTotal m).
Proof.
  intros Hps Hfit.
  set (mp := extractParamMapArrVals (elems (Matrix_Params m))).
  assert (Hle : (sum_list ((fun e => entryContribution mp (IncludeParams_Params e))
                             <$> elems (Matrix_Include m))
                 ≤ includeParamsTotal m)%nat).
  { unfold includeParamsTotal.
    induction (elems (Matrix_Include m)) as [|e es IH]; simpl; [lia|].
    pose proof (entryContribution_le mp (IncludeParams_Params e)). unfold fmap in IH. lia. }
  destruct (elems (Matrix_Include m)) as [|e es] eqn:Hinc.
  - exists 0. unfold countNewCombinationsFromInclude.
    rewrite (proj2 (HasInclude_false m) Hinc). simpl. split; [done|lia].
  - rewrite countNewCombinationsFromInclude_eq by (by rewrite ?Hinc).
    rewrite foldl_scanIncludeParams_0, Hinc. eexists. split; [done|].
    fold mp. rewrite wrap_small; unfold GoInt.min_int; lia.
Qed.

Lemma countNewCombinationsFromInclude_bounds_witness :
  ∃ n, countNewCombinationsFromInclude
         (Some (mkMatrix (Some [arrayParam "a" ["x"]])
                         (Some [mkIncludeParams "e" [stringParam "a" "z"; stringParam "c" "x"]])))
       = Ok n
       ∧ 0 ≤ n ≤ Z.of_nat (includeParamsTotal
                    (mkMatrix (Some [arrayParam "a" ["x"]])
                       (Some [mkIncludeParams "e" [stringParam "a" "z"; stringParam "c" "x"]]))).
Proof.
  apply countNewCombinationsFromInclude_bounds.
  - discriminate.
  - vm_compute. discriminate.
Defined.

(** X8: with non-empty Params, Include entries that name no value missing
    from the matrix arrays (each param either has a name outside
    [Matrix.Params] or a value already in that parameter's array) add
    nothing: [CountCombinations] is what it is without Include. *)
Theorem include_existing_values_add_nothing m :
  elems (Matrix_Params m) ≠ [] →
  (∀ e p, e ∈ elems (Matrix_Include m) → p ∈ IncludeParams_Params e →
          valueAbsent (extractParamMapArrVals (elems (Matrix_Params m))) p = false) →
  countNewCombinationsFromInclude (Some m) = Ok 0
  ∧ CountCombinations (Some m)
    = CountCombinations (Some (mkMatrix (Matrix_Params m) None)).
Proof.
  intros Hps Hall.
  assert (Hnew : countNewCombinationsFromInclude (Some m) = Ok 0).
  { destruct (elems (Matrix_Include m)) as [|e es] eqn:Hinc.
    - unfold countNewCombinationsFromInclude.
      by rewrite (proj2 (HasInclude_false m) Hinc).
    - rewrite countNewCombinationsFromInclude_eq by (by rewrite ?Hinc).
      rewrite foldl_scanIncludeParams_0, Hinc. f_equal.
      by rewrite sum_entryContribution_zero. }
  split; [done|].
  unfold CountCombinations. rewrite Hnew.
  by destruct m as [ps inc].
Qed.

Lemma include_existing_values_add_nothing_witness :
  countNewCombinationsFromInclude
    (Some (mkMatrix (Some [arrayParam "OS" ["linux"; "mac"]])
                    (Some [mkIncludeParams "e" [stringParam "OS" "mac"; stringParam "GO" "1.20"]])))
  = Ok 0.
Proof.
  apply (include_existing_values_add_nothing
           (mkMatrix (Some [arrayParam "OS" ["linux"; "mac"]])
                     (Some [mkIncludeParams "e" [stringParam "OS" "mac"; stringParam "GO" "1.20"]]))).
  - discriminate.
  - intros e p He Hp. simpl in He. apply list_elem_of_singleton in He as ->.
    simpl in Hp. apply elem_of_cons in Hp as [->|Hp].
    + vm_compute. reflexivity.
    + apply list_elem_of_singleton in Hp as ->. vm_compute. reflexivity.
Defined.

End CountAsWhole.

(** ** The bound check and the fan-out *)

Section BoundAndFanOut.

(** X9: when every array is non-empty and the count does not overflow, a
    matrix that passes the bound check fans out to at most the configured
    maximum of combinations. *)
Theorem validateCombinationsCount_bounds_FanOut ctx m outs :
  Forall (fun l => (0 < l)%nat) (arrayLengths (elems (Matrix_Params m))) →
  Z.of_nat (paramsCount m + includeCount m) ≤ GoInt.max_int →
  validateCombinationsCount ctx (Some m) = Ok [] →
  FanOut (Some m) = Ok outs →
  GoInt.len outs ≤ DefaultMaxMatrixCombinationsCount ctx.
Proof.
  intros Hpos Hfit Hval. rewrite FanOut_Some. intros [= <-].
  unfold validateCombinationsCount in Hval.
  rewrite (proj2 (CountCombinations_closed m) Hfit) in Hval. simpl in Hval.
  destruct (Z.gtb_spec (Z.of_nat (paramsCount m + includeCount m))
                       (DefaultMaxMatrixCombinationsCount ctx)) as [Hgt|Hle];
    [discriminate Hval|].
  unfold GoInt.len, toParams. rewrite length_map.
  assert (Hlen : (length (fanOutLoop (elems (Matrix_Params m))) ≤ paramsCount m)%nat).
  { unfold paramsCount. destruct (elems (Matrix_Params m)) as [|p ps] eqn:Hps; [done|].
    by rewrite length_fanOutLoop. }
  lia.
Qed.

Lemma validateCombinationsCount_bounds_FanOut_witness :
  GoInt.len [[stringParam "OS" "linux"; stringParam "VER" "1"];
             [stringParam "OS" "mac"; stringParam "VER" "1"];
             [stringParam "OS" "linux"; stringParam "VER" "2"];
             [stringParam "OS" "mac"; stringParam "VER" "2"]]
  ≤ DefaultMaxMatrixCombinationsCount (mkDefaults 5).
Proof.
  apply (validateCombinationsCount_bounds_FanOut (mkDefaults 5)
           (mkMatrix (Some [arrayParam "OS" ["linux"; "mac"]; arrayParam "VER" ["1"; "2"]])
                     (Some [mkIncludeParams "e" [stringParam "OS" "windows"]]))).
  - repeat constructor.
  - vm_compute. discriminate.
  - vm_compute. reflexivity.
  - vm_compute. reflexivity.
Defined.

End BoundAndFanOut.

(** ** All parameters, and the check against the plain parameters *)

Section AllParams.

Lemma foldl_app_concat {A B} (f : B → list A) (l : list B) (acc : list A) :
  foldl (fun acc x => acc ++ f x) acc l = acc ++ concat (f <$> l).
Proof.
  revert acc. induction l as [|x l IH]; intros acc; simpl.
  - by rewrite app_nil_r.
  - by rewrite IH, <- app_assoc.
Qed.

Lemma GetAllParams_Some m :
  GetAllParams (Some m)
  = Ok (elems (Matrix_Params m)
        ++ concat (IncludeParams_Params <$> elems (Matrix_Include m))).
Proof.
  unfold GetAllParams.
  destruct (elems (Matrix_Params m)) as [|p ps] eqn:Hps;
    destruct (elems (Matrix_Include m)) as [|e es] eqn:Hinc.
  - by rewrite (proj2 (HasParams_false m) Hps), (proj2 (HasInclude_false m) Hinc).
  - rewrite (proj2 (HasParams_false m) Hps).
    rewrite (proj2 (HasInclude_true m)) by (by rewrite Hinc).
    simpl. by rewrite Hinc, foldl_app_concat.
  - rewrite (proj2 (HasInclude_false m) Hinc).
    rewrite (proj2 (HasParams_true m)) by (by rewrite Hps).
    simpl. by rewrite ?Hps, ?app_nil_r.
  - rewrite (proj2 (HasParams_true m)) by (by rewrite Hps).
    rewrite (proj2 (HasInclude_true m)) by (by rewrite Hinc).
    simpl. by rewrite Hps, Hinc, foldl_app_concat.
Qed.

(** X10: [GetAllParams] never dereferences a nil matrix (it returns no
    params for it); otherwise it returns the params of [Matrix.Params]
    followed by those of every Include entry in order, so a param is returned
    exactly when it is in [Matrix.Params] or in some Include entry. *)
Theorem GetAllParams_all :
  GetAllParams None = Ok []
  ∧ ∀ m, ∃ all,
      GetAllParams (Some m) = Ok all
      ∧ all = elems (Matrix_Params m)
              ++ concat (IncludeParams_Params <$> elems (Matrix_Include m))
      ∧ ∀ p, p ∈ all ↔
             p ∈ elems (Matrix_Params m)
             ∨ ∃ e, e ∈ elems (Matrix_Include m) ∧ p ∈ IncludeParams_Params e.
Proof.
  split; [done|]. intros m. eexists. split; [apply GetAllParams_Some|].
  split; [done|]. intros p. rewrite elem_of_app, (list_elem_of_In (concat _)), in_concat.
  split; (intros [Hp|Hp]; [by left|right]).
  - destruct Hp as (l & Hl & Hpl). apply list_elem_of_In in Hl, Hpl.
    apply list_elem_of_fmap in Hl as (e & -> & He). by exists e.
  - destruct Hp as (e & He & Hpe). exists (IncludeParams_Params e).
    rewrite <- !list_elem_of_In. split; [|done]. apply list_elem_of_fmap. by exists e.
Qed.

Lemma filter_fmap_nil {A B} (P : A → Prop) `{!∀ x, Decision (P x)} (f : A → B) l :
  f <$> filter P l = [] ↔ ∀ x, x ∈ l → ¬ P x.
Proof.
  split.
  - intros Hnil%fmap_nil_inv x Hx HP. by eapply filter_nil_not_elem_of.
  - intros Hall. induction l as [|x l IH]; [done|].
    rewrite filter_cons, decide_False by (apply Hall; by left).
    apply IH. intros y Hy. apply Hall. by right.
Qed.

Lemma elem_of_ExtractNames ps name : name ∈ ExtractNames ps ↔ name ∈ Name <$> ps.
Proof.
  unfold ExtractNames.
  assert (Hgen : ∀ acc : gset string,
             name ∈ foldl (fun names p => {[Name p]} ∪ names) acc ps
             ↔ name ∈ acc ∨ name ∈ Name <$> ps).
  { induction ps as [|p ps IH]; intros acc; cbn [foldl fmap list_fmap].
    - rewrite elem_of_nil. tauto.
    - rewrite IH, elem_of_union, elem_of_singleton, elem_of_cons. tauto. }
  rewrite Hgen, elem_of_empty. tauto.
Qed.

Lemma oneOf_loop (names : gset string) (params : list Param) (errs : ValidationErrors) :
  foldl (fun errs param =>
           if decide (Name param ∈ names)
           then alsoErrors errs
                  [ErrMultipleOneOf [("matrix[" ++ Name param ++ "]")%string;
                                     ("params[" ++ Name param ++ "]")%string]]
           else errs)
        errs params
  = errs ++ ((fun p => ErrMultipleOneOf [("matrix[" ++ Name p ++ "]")%string;
                                         ("params[" ++ Name p ++ "]")%string])
               <$> filter (fun p => Name p ∈ names) params).
Proof.
  revert errs. induction params as [|p params IH]; intros errs; cbn [foldl].
  - by rewrite app_nil_r.
  - rewrite IH. rewrite filter_cons. destruct (decide (Name p ∈ names)).
    + unfold alsoErrors. by rewrite fmap_cons, <- app_assoc.
    + done.
Qed.

(** X11: the check of the plain parameters against the matrix reports, in
    order, one "both supplied" error for each plain parameter whose name is
    a name of [Matrix.Params] or of an Include entry's params, naming
    [matrix[name]] and [params[name]]; it reports nothing exactly when no
    plain parameter bears such a name, and nothing for the nil matrix. *)
Theorem validateParameterInOneOfMatrixOrParams_conflicts :
  (∀ params, validateParameterInOneOfMatrixOrParams None params = Ok [])
  ∧ ∀ m params, ∃ errs,
      validateParameterInOneOfMatrixOrParams (Some m) params = Ok errs
      ∧ errs = (fun p => ErrMultipleOneOf [("matrix[" ++ Name p ++ "]")%string;
                                           ("params[" ++ Name p ++ "]")%string])
                 <$> filter (fun p => Name p ∈ matrixNames m) params
      ∧ (errs = [] ↔ ∀ p, p ∈ params → Name p ∉ matrixNames m).
Proof.
  split.
  - intros params. unfold validateParameterInOneOfMatrixOrParams. simpl.
    rewrite oneOf_loop. simpl. f_equal.
    apply filter_fmap_nil. intros p _. apply not_elem_of_empty.
  - intros m params. unfold validateParameterInOneOfMatrixOrParams.
    rewrite GetAllParams_Some. simpl bind. rewrite oneOf_loop. simpl app.
    assert (Hfilter : filter (fun p => Name p ∈ ExtractNames
                       (elems (Matrix_Params m)
                        ++ concat (IncludeParams_Params <$> elems (Matrix_Include m)))) params
                      = filter (fun p => Name p ∈ matrixNames m) params).
    { apply list_filter_iff. intros p. apply elem_of_ExtractNames. }
    rewrite Hfilter. eexists. split; [done|]. split; [done|].
    apply filter_fmap_nil.
Qed.

End AllParams.

(** ** The type check and the reference check *)

Section ValidatorProperties.

Variable paramTypeString : ParamType → string.
Variable validateDuplicateParameters : Params → ValidationErrors.
Variable validateStringVariable :
  string → string → gset string → gset string → gmap string (list string)
  → ValidationErrors.
Variable validateArrayVariable :
  string → string → gset string → gset string → gmap string (list string)
  → ValidationErrors.

Lemma rangeIndexed_length {A} (body : nat → A → ValidationErrors → ValidationErrors)
      (n : A → nat) :
  (∀ i x errs, length (body i x errs) = (length errs + n x)%nat) →
  ∀ l idx errs,
    length (rangeIndexed body idx l errs) = (length errs + sum_list (n <$> l))%nat.
Proof.
  intros Hbody. induction l as [|x l IH]; intros idx errs; simpl.
  - lia.
  - rewrite IH, Hbody. unfold fmap. lia.
Qed.


Lemma sum_list_fmap_zero {A} (n : A → nat) (l : list A) :
  sum_list (n <$> l) = 0%nat ↔ ∀ x, x ∈ l → n x = 0%nat.
Proof.
  induction l as [|x l IH]; simpl.
  - split; [|done]. intros _ y Hy. by apply elem_of_nil in Hy.
  - unfold fmap in IH. split.
    + intros Hsum y Hy. apply elem_of_cons in Hy as [->|Hy]; [lia|].
      apply IH; [lia|done].
    + intros Hall. rewrite (Hall x) by (by left).
      apply IH. intros y Hy. apply Hall. by right.
Qed.

Lemma validateParamTypes_eq wanted message field params errs :
  validateParamTypes paramTypeString wanted message field params errs
  = errs ++ ((fun p => ViaFieldKey field (Name p)
                         (ErrInvalidValue
                            (message ++ paramTypeString (Type_ (Value p)))%string
                            EmptyString))
               <$> mistyped wanted params).
Proof.
  unfold validateParamTypes, mistyped.
  revert errs. induction params as [|p params IH]; intros errs; cbn [foldl].
  - by rewrite app_nil_r.
  - rewrite IH, filter_cons. destruct (decide (Type_ (Value p) ≠ wanted)); [|done].
    unfold alsoErrors, viaFieldKey. by rewrite !fmap_cons, <- app_assoc.
Qed.

Lemma mistyped_nil wanted params :
  length (mistyped wanted params) = 0%nat ↔ ∀ p, p ∈ params → Type_ (Value p) = wanted.
Proof.
  unfold mistyped. split.
  - intros Hlen%nil_length_inv p Hp.
    destruct (decide (Type_ (Value p) = wanted)) as [|Hne]; [done|].
    by destruct (filter_nil_not_elem_of _ _ p Hlen Hne).
  - intros Hall. induction params as [|p params IH]; [done|].
    rewrite filter_cons, decide_False.
    + apply IH. intros q Hq. apply Hall. by right.
    + intros Hne. apply Hne, Hall. by left.
Qed.

Lemma validateParams_length m :
  ∃ errs,
    validateParams paramTypeString validateDuplicateParameters (Some m) = Ok errs
    ∧ length errs
      = (sum_list ((fun e => length (validateDuplicateParameters (IncludeParams_Params e))
                             + length (mistyped ParamTypeString (IncludeParams_Params e)))
                     <$> elems (Matrix_Include m))
         + ((if decide (elems (Matrix_Params m) = []) then 0
             else length (validateDuplicateParameters (elems (Matrix_Params m))))
            + length (mistyped ParamTypeArray (elems (Matrix_Params m)))))%nat.
Proof.
  unfold validateParams. rewrite decide_True by done.
  set (body := fun (i : nat) (include : IncludeParams) (errs : ValidationErrors) => _).
  assert (Hbody : ∀ i x errs,
             length (body i x errs)
             = (length errs
                + (length (validateDuplicateParameters (IncludeParams_Params x))
                   + length (mistyped ParamTypeString (IncludeParams_Params x))))%nat).
  { intros i x errs. unfold body. rewrite validateParamTypes_eq.
    unfold alsoErrors, viaField. rewrite !length_app, !length_fmap. lia. }
  pose proof (rangeIndexed_length body _ Hbody (elems (Matrix_Include m)) 0%nat [])
    as Hinclude.
  destruct (elems (Matrix_Include m)) as [|e es] eqn:Hinc;
    destruct (elems (Matrix_Params m)) as [|p ps] eqn:Hps.
  - rewrite (proj2 (HasInclude_false m) Hinc), (proj2 (HasParams_false m) Hps).
    by eexists.
  - rewrite (proj2 (HasInclude_false m) Hinc).
    rewrite (proj2 (HasParams_true m)) by (by rewrite Hps).
    simpl bind. rewrite Hps. eexists. split; [done|].
    rewrite validateParamTypes_eq. unfold alsoErrors, viaField.
    rewrite !length_app, !length_fmap. rewrite decide_False by done. simpl. lia.
  - rewrite (proj2 (HasParams_false m) Hps).
    rewrite (proj2 (HasInclude_true m)) by (by rewrite Hinc).
    simpl bind. rewrite Hinc. eexists. split; [done|].
    rewrite Hinclude. simpl. lia.
  - rewrite (proj2 (HasParams_true m)) by (by rewrite Hps).
    rewrite (proj2 (HasInclude_true m)) by (by rewrite Hinc).
    simpl bind. rewrite Hinc, Hps. eexists. split; [done|].
    rewrite validateParamTypes_eq. unfold alsoErrors, viaField.
    rewrite !length_app, !length_fmap, Hinclude. rewrite decide_False by done.
    simpl. lia.
Qed.

(** X12: [validateParams] collects every violation instead of stopping at
    the first: it returns as many errors as the duplicate-name check reports
    for each Include entry and (when there are Params) for [Matrix.Params],
    plus one for every Include param that is not of string type and one for
    every matrix param that is not of array type. *)
Theorem validateParams_collects_all m :
  ∃ errs,
    validateParams paramTypeString validateDuplicateParameters (Some m) = Ok errs
    ∧ length errs
      = (sum_list ((fun e => length (validateDuplicateParameters (IncludeParams_Params e))
                             + length (mistyped ParamTypeString (IncludeParams_Params e)))
                     <$> elems (Matrix_Include m))
         + ((if decide (elems (Matrix_Params m) = []) then 0
             else length (validateDuplicateParameters (elems (Matrix_Params m))))
            + length (mistyped ParamTypeArray (elems (Matrix_Params m)))))%nat.
Proof. apply validateParams_length. Qed.

(** X13: [validateParams] accepts the nil matrix, and accepts a matrix
    exactly when the duplicate-name check reports nothing for any Include
    entry nor (when there are Params) for [Matrix.Params], every Include
    param is of string type and every matrix param is of array type. *)
Theorem validateParams_accepts :
  validateParams paramTypeString validateDuplicateParameters None = Ok []
  ∧ ∀ m,
      validateParams paramTypeString validateDuplicateParameters (Some m) = Ok []
      ↔ (∀ e, e ∈ elems (Matrix_Include m) →
              validateDuplicateParameters (IncludeParams_Params e) = []
              ∧ ∀ p, p ∈ IncludeParams_Params e → Type_ (Value p) = ParamTypeString)
        ∧ (elems (Matrix_Params m) ≠ [] →
           validateDuplicateParameters (elems (Matrix_Params m)) = [])
        ∧ (∀ p, p ∈ elems (Matrix_Params m) → Type_ (Value p) = ParamTypeArray).
Proof.
  split; [done|]. intros m.
  destruct (validateParams_length m) as (errs & -> & Hlen).
  assert (Hnil : Ok errs = Ok [] ↔ length errs = 0%nat).
  { split; [by intros [= ->]|]. by intros ->%nil_length_inv. }
  rewrite Hnil, Hlen, !Nat.eq_add_0, sum_list_fmap_zero, mistyped_nil.
  split.
  - intros (Hinc & Hdup & Htypes). repeat split; [..|done].
    + apply nil_length_inv. specialize (Hinc e H). lia.
    + apply mistyped_nil. specialize (Hinc e H). lia.
    + intros Hne. rewrite decide_False in Hdup by done. by apply nil_length_inv.
  - intros (Hinc & Hdup & Htypes). repeat split; [| |done].
    + intros e He. destruct (Hinc e He) as [-> Hstr].
      apply mistyped_nil in Hstr. by rewrite Hstr.
    + case_decide; [done|]. by rewrite Hdup.
Qed.



End ValidatorProperties.

(** ** One parameter, and no repeated combination *)

Section FanOutShape.

(** X15: a matrix with a single parameter fans out to one single-parameter
    list per array element, in the order of the array, repeated elements
    included. *)
Theorem FanOut_single_param p inc :
  FanOut (Some (mkMatrix (Some [p]) inc))
  = Ok ((fun value => [stringParam (Name p) value]) <$> ArrayVal (Value p)).
Proof.
  rewrite FanOut_Some. f_equal. simpl elems. unfold fanOutLoop. cbn [foldl].
  rewrite fanOutMatrixParams_nil, initializeCombinations_eq, toParams_eq.
  rewrite <- list_fmap_compose. apply list_fmap_ext. intros _ value _. simpl.
  unfold rangeKeys. rewrite map_to_list_singleton. simpl.
  unfold index. by rewrite lookup_singleton_eq.
Qed.

Lemma fanOutLoop_names ps (c : Combination) k :
  c ∈ fanOutLoop ps → is_Some (c !! k) → k ∈ Name <$> ps.
Proof.
  intros Hc [v Hv]. destruct (fanOutLoop_sound ps c k v Hc Hv) as (p & Hp & <- & _).
  apply list_elem_of_fmap. by exists p.
Qed.

Lemma fanOutLoop_NoDup ps :
  NoDup (Name <$> ps) → Forall (fun p => NoDup (ArrayVal (Value p))) ps →
  NoDup (fanOutLoop ps).
Proof.
  induction ps as [|q ps IH] using rev_ind; intros Hnames Harrays.
  - constructor.
  - rewrite fmap_app in Hnames. apply NoDup_app in Hnames as (Hnames & Hfresh & _).
    apply Forall_app in Harrays as [Harrays Hq].
    apply Forall_inv in Hq.
    assert (Hnew : Name q ∉ Name <$> ps).
    { intros Hin. apply (Hfresh _ Hin). by left. }
    specialize (IH Hnames Harrays).
    rewrite fanOutLoop_snoc.
    destruct (fanOutLoop ps) as [|c1 cs] eqn:Hloop.
    + rewrite fanOutMatrixParams_nil, initializeCombinations_eq.
      apply NoDup_fmap_2_strong; [|exact Hq].
      intros v1 v2 _ _ Heq.
      assert (Hl : ({[Name q := v1]} : Combination) !! Name q = Some v2)
        by (by rewrite Heq, lookup_singleton_eq).
      rewrite lookup_singleton_eq in Hl. by injection Hl.
    + rewrite fanOutMatrixParams_cons, distribute_eq.
      assert (Hnone : ∀ c : Combination, c ∈ c1 :: cs → c !! Name q = None).
      { intros c Hc. apply eq_None_not_Some. intros Hsome. apply Hnew.
        apply (fanOutLoop_names ps c); [by rewrite Hloop|done]. }
      apply NoDup_bind; [| |exact Hq].
      * intros v1 v2 c Hv1 Hv2 Hc1 Hc2.
        apply list_elem_of_fmap in Hc1 as (c' & -> & _).
        apply list_elem_of_fmap in Hc2 as (c'' & Heq & _).
        assert (Hl : <[Name q := v1]> c' !! Name q = Some v2)
          by (by rewrite Heq, lookup_insert_eq).
        rewrite lookup_insert_eq in Hl. by injection Hl.
      * intros v _. apply NoDup_fmap_2_strong; [|done].
        intros c' c'' Hc' Hc'' Heq.
        rewrite <- (delete_insert_id c' (Name q) v), <- (delete_insert_id c'' (Name q) v), Heq;
          auto.
Qed.

(** X16: when the names of [Matrix.Params] are distinct and no array holds
    an element twice, [FanOut] returns no parameter list twice. *)
Theorem FanOut_no_repeats m outs :
  NoDup (Name <$> elems (Matrix_Params m)) →
  Forall (fun p => NoDup (ArrayVal (Value p))) (elems (Matrix_Params m)) →
  FanOut (Some m) = Ok outs → NoDup outs.
Proof.
  intros Hnames Harrays. rewrite FanOut_Some. intros [= <-].
  rewrite toParams_eq. apply NoDup_fmap_2_strong; [|by apply fanOutLoop_NoDup].
  intros c c' _ _ Heq. apply map_eq. intros k. apply option_eq. intros v.
  by rewrite <- !stringParam_elem, Heq.
Qed.

Lemma FanOut_no_repeats_witness :
  NoDup [[stringParam "OS" "linux"; stringParam "VER" "1"];
         [stringParam "OS" "mac"; stringParam "VER" "1"];
         [stringParam "OS" "linux"; stringParam "VER" "2"];
         [stringParam "OS" "mac"; stringParam "VER" "2"]].
Proof.
  apply (FanOut_no_repeats
           (mkMatrix (Some [arrayParam "OS" ["linux"; "mac"]; arrayParam "VER" ["1"; "2"]]) None)).
  - simpl. repeat constructor.
    + intros Hin. apply list_elem_of_singleton in Hin. discriminate Hin.
    + apply not_elem_of_nil.
  - simpl. repeat constructor;
      try apply not_elem_of_nil;
      intros Hin; apply list_elem_of_singleton in Hin; discriminate Hin.
  - vm_compute. reflexivity.
Defined.

End FanOutShape.
